(** * Name canonicalisation and duplicate detection

    A shallow embedding of the core of [parse_employer_bu.py] (splitting a
    "Last, First Middle" full name) and of [check_skipped_imports.py]
    (combining name parts, exact and fuzzy matching of two name lists),
    with the properties of the specification stated over it.

    Python values are modelled as follows.
    - [str] is a list of characters; a character is a code point below 256
      (Latin-1), which covers the whitespace and case rules used here.
    - A cell of a table loaded with [dtype=str] is either a string or the
      missing marker NaN: [option str], [None] being NaN.
    - A float is the rational number it denotes; the order on floats is the
      order on rationals.  NaN and the infinities are not represented.
    - A raised exception is an [Err] result carrying the exception. *)

From Stdlib Require Import String Ascii List Bool Arith Lia.
From Stdlib Require Import ZArith QArith.
From Stdlib Require Import Permutation Sorted.
Import ListNotations.

Local Close Scope Q_scope.
Local Open Scope list_scope.

(** ** Python strings *)

Module PyStr.

Definition str := list ascii.

(** A literal. *)
Definition lit (s : string) : str := list_ascii_of_string s.

Definition str_eqb (a b : str) : bool :=
  if list_eq_dec ascii_dec a b then true else false.

(** [str.isspace] on one character: the ASCII whitespace table of CPython
    (tab, LF, VT, FF, CR, FS, GS, RS, US, space) and the two Latin-1
    characters NEL (0x85) and NBSP (0xA0). *)
Definition isspace (c : ascii) : bool :=
  let n := nat_of_ascii c in
  ((9 <=? n) && (n <=? 13)) || ((28 <=? n) && (n <=? 32))
  || (n =? 133) || (n =? 160).

(** [str.lower] on one character of Latin-1. *)
Definition lower_char (c : ascii) : ascii :=
  let n := nat_of_ascii c in
  if ((65 <=? n) && (n <=? 90))
     || ((192 <=? n) && (n <=? 222) && negb (n =? 215))
  then ascii_of_nat (n + 32) else c.

Definition lower (s : str) : str := map lower_char s.

(** [s.lstrip()], [s.rstrip()], [s.strip()] *)
Fixpoint lstrip (s : str) : str :=
  match s with
  | c :: s' => if isspace c then lstrip s' else s
  | [] => []
  end.

Fixpoint rstrip (s : str) : str :=
  match s with
  | [] => []
  | c :: s' =>
      match rstrip s' with
      | [] => if isspace c then [] else [c]
      | r => c :: r
      end
  end.

Definition strip (s : str) : str := rstrip (lstrip s).

(** [s.split(sep)] for a one-character separator: the fields between the
    separators, empty fields included; always at least one field. *)
Fixpoint split_on (sep : ascii) (s : str) : list str :=
  match s with
  | [] => [[]]
  | c :: s' =>
      if Ascii.eqb c sep then [] :: split_on sep s'
      else match split_on sep s' with
           | f :: fs => (c :: f) :: fs
           | [] => [[c]]
           end
  end.

(** [s.split()]: the maximal runs of non-whitespace characters. *)
Fixpoint split_ws (s : str) : list str :=
  match s with
  | [] => []
  | c :: s' =>
      if isspace c then split_ws s'
      else match s' with
           | [] => [[c]]
           | d :: _ =>
               if isspace d then [c] :: split_ws s'
               else match split_ws s' with
                    | t :: ts => (c :: t) :: ts
                    | [] => [[c]]
                    end
           end
  end.

(** [sep.join(parts)] *)
Fixpoint join (sep : str) (parts : list str) : str :=
  match parts with
  | [] => []
  | [p] => p
  | p :: ps => p ++ sep ++ join sep ps
  end.

(** [s.endswith(".")] *)
Definition ends_with_period (s : str) : bool :=
  match rev s with
  | c :: _ => Ascii.eqb c "."%char
  | [] => false
  end.

Definition count_char (c : ascii) (s : str) : nat := count_occ ascii_dec s c.

Definition blank (s : str) : bool := forallb isspace s.

(** A word: non-empty and free of whitespace. *)
Definition word (t : str) : Prop := t <> [] /\ existsb isspace t = false.

End PyStr.
Import PyStr.

(** ** Exceptions and results *)

Inductive exn : Type :=
| ValueError (msg : str)
| IndexError (msg : str)
| KeyError (key : str).

Inductive result (A : Type) : Type :=
| Ok (v : A)
| Err (e : exn).
Arguments Ok {A} v.
Arguments Err {A} e.

Definition bind {A B} (r : result A) (k : A -> result B) : result B :=
  match r with
  | Ok v => k v
  | Err e => Err e
  end.

Notation "x <- r ;; k" := (bind r (fun x => k))
  (at level 61, r at next level, right associativity).

(** A [for] loop that builds a list and stops at the first exception. *)
Fixpoint for_each {A B} (body : A -> result B) (l : list A) : result (list B) :=
  match l with
  | [] => Ok []
  | x :: l' => y <- body x ;; ys <- for_each body l' ;; Ok (y :: ys)
  end.

(** ** parse_employer_bu.py: splitting a full name *)

Module ParseEmployerBu.

Definition comma : ascii := ","%char.

(** The text before and after the first comma. *)
Fixpoint before_comma (s : str) : str :=
  match s with
  | [] => []
  | c :: s' => if Ascii.eqb c comma then [] else c :: before_comma s'
  end.

Fixpoint after_comma (s : str) : str :=
  match s with
  | [] => []
  | c :: s' => if Ascii.eqb c comma then s' else after_comma s'
  end.

(** The text an f-string shows for a cell. *)
Definition show (cell : option str) : str :=
  match cell with
  | Some s => s
  | None => lit "nan"
  end.

(** The body of the loop of [parse_fullnames] (lines 141-161) for one cell
    of the full-name column: the (last, first, middle) it appends. *)
Definition parse_fullname (fullname : option str) : result (str * str * str) :=
  match fullname with
  | None => Err (ValueError (lit "Invalid name value: " ++ show fullname))
  | Some s =>
      match strip s with
      | [] => Err (ValueError (lit "Invalid name value: " ++ show fullname))
      | _ :: _ =>
        match split_on comma s with
        | [last; rest] =>
            let last := strip last in
            let rest := strip rest in
            let parts := split_ws rest in
            match rev parts with
            | [] => Err (IndexError (lit "list index out of range"))
            | p :: _ =>
                if ends_with_period p
                then Ok (last, join (lit " ") (removelast parts), p)
                else Ok (last, join (lit " ") parts, [])
            end
        | _ =>
            Err (ValueError
                   (lit "Name must contain exactly one comma: " ++ show fullname))
        end
      end
  end.

(** The two defects of shape named by the specification: the value is
    not a string that is non-empty after trimming, or its number of commas
    is not one. *)
Definition malformed (fullname : option str) : Prop :=
  match fullname with
  | None => True
  | Some s => strip s = [] \/ count_char comma s <> 1
  end.

(** The reconstruction of line 167-169 for one row. *)
Definition reconstruct (n : str * str * str) : str :=
  let '(last, first, middle) := n in
  strip (last ++ lit ", " ++ first ++ lit " " ++ middle).

(** [parse_fullnames] on the full-name column: the Last, First and Middle
    columns it adds, after the check that every row is rebuilt exactly. *)
Definition parse_fullnames (col : list (option str))
  : result (list (str * str * str)) :=
  rows <- for_each parse_fullname col ;;
  if forallb (fun p => str_eqb (reconstruct (snd p)) (show (fst p)))
             (combine col rows)
  then Ok rows
  else Err (ValueError (lit "Full name data in unexpected format")).

End ParseEmployerBu.
Import ParseEmployerBu.

(** ** check_skipped_imports.py: combining name parts and matching *)

Module CheckSkippedImports.

(** A row of the three name columns (last, first, middle). *)
Definition row : Type := option str * option str * option str.

Definition clean_name_part (x : option str) : str :=
  match x with
  | Some s => s
  | None => []
  end.

(** A cell that is NaN or holds only whitespace. *)
Definition blank_or_missing (x : option str) : bool :=
  match x with
  | Some s => blank s
  | None => true
  end.

(** The body of the loop of [combine_name_parts] (lines 111-116). *)
Definition combine_row (parts : row) : result str :=
  let '(last, first, middle) := parts in
  let last := clean_name_part last in
  let first := clean_name_part first in
  let middle := clean_name_part middle in
  let full_name := strip (last ++ lit ", " ++ first ++ lit " " ++ middle) in
  match full_name with
  | [] => Err (ValueError (lit "Invalid name: {parts}"))
  | _ :: _ => Ok full_name
  end.

Definition combine_name_parts (rows : list row) : result (list str) :=
  for_each combine_row rows.

(** *** The report *)

Inductive match_kind : Type := exact | fuzzy.

(** One dictionary appended to [results], a row of the returned table. *)
Record candidate : Type := Candidate {
  name : str;
  match_type : match_kind;
  similarity : Q;
  existing_matches : list str
}.

Definition Qltb (a b : Q) : bool := negb (Qle_bool b a).

(** A stable sort by descending key: [list.sort(key=..., reverse=True)].
    An element is put after the elements whose key is strictly greater and
    before those already there with an equal key. *)
Section SortDesc.
Context {A : Type} (key : A -> Q).

Fixpoint insert_desc (x : A) (l : list A) : list A :=
  match l with
  | [] => [x]
  | y :: l' => if Qltb (key x) (key y) then y :: insert_desc x l' else x :: l
  end.

Definition sort_desc (l : list A) : list A := fold_right insert_desc [] l.

(** Sorted by descending key. *)
Definition sorted_desc (l : list A) : Prop :=
  StronglySorted (fun a b => (key b <= key a)%Q) l.
End SortDesc.

(** [pd.DataFrame(results).sort_values(by="similarity", ascending=False)].
    A frame built from an empty list has no columns, so the column lookup
    raises KeyError.  Otherwise the rows come back in descending order of
    the column.  The place of rows with equal keys is a function of the
    column of keys alone; pandas does not promise which one for its
    default sort kind, and the stable one is taken here. *)
Definition sort_values_by_similarity (results : list candidate)
  : result (list candidate) :=
  match results with
  | [] => Err (KeyError (lit "similarity"))
  | _ :: _ => Ok (sort_desc similarity results)
  end.

(** The order in which a Python [set] built from a list is iterated.  It
    depends on the hashes of the strings, which change from one process to
    the next; it lists every member once. *)
Record set_order : Type := SetOrder {
  iter : list str -> list str;
  iter_NoDup : forall l, NoDup (iter l);
  iter_In : forall l x, In x (iter l) <-> In x l
}.

(** [x for x in l if pd.notna(x)] *)
Fixpoint notna (l : list (option str)) : list str :=
  match l with
  | [] => []
  | Some s :: l' => s :: notna l'
  | None :: l' => notna l'
  end.

(** [str(n).lower().strip()] *)
Definition clean (n : str) : str := strip (lower n).

Definition mem (x : str) (l : list str) : bool := existsb (str_eqb x) l.

Section Matcher.
(** The iteration order of the reference set in this run. *)
Variable order : set_order.
(** [SequenceMatcher(None, a, b).ratio()] *)
Variable ratio : str -> str -> Q.

(** Lines 51-54: the pairs kept in [close_matches]. *)
Definition close_matches (name : str) (names2 : list str) (threshold : Q)
  : list (str * Q) :=
  filter (fun p => Qle_bool threshold (snd p))
         (map (fun existing => (existing, ratio name existing)) names2).

(** The body of the loop over [names1] (lines 38-64): the dictionary
    appended to [results], if any, and the pairs of strings that were
    given to SequenceMatcher. *)
Definition check_name (names2 : list str) (threshold : Q) (name : str)
  : option candidate * list (str * str) :=
  if mem name names2
  then (Some (Candidate name exact 1 [name]), [])
  else
    let compared := map (fun existing => (name, existing)) names2 in
    match sort_desc snd (close_matches name names2 threshold) with
    | [] => (None, compared)
    | (best :: _) as sorted =>
        (Some (Candidate name fuzzy (snd best) (map fst sorted)), compared)
    end.

Definition option_list {A} (o : option A) : list A :=
  match o with
  | Some x => [x]
  | None => []
  end.

(** [names2] after line 35, in iteration order. *)
Definition reference_set (names2 : list (option str)) : list str :=
  iter order (map clean (notna names2)).

(** [results] when the loop ends. *)
Definition results (names1 names2 : list (option str)) (threshold : Q)
  : list candidate :=
  flat_map
    (fun name => option_list (fst (check_name (reference_set names2) threshold name)))
    (map clean (notna names1)).

(** Every pair of strings compared by SequenceMatcher during the call. *)
Definition comparisons (names1 names2 : list (option str)) (threshold : Q)
  : list (str * str) :=
  flat_map
    (fun name => snd (check_name (reference_set names2) threshold name))
    (map clean (notna names1)).

Definition find_potential_duplicates
  (names1 names2 : list (option str)) (threshold : Q)
  : result (list candidate) :=
  sort_values_by_similarity (results names1 names2 threshold).

(** [check_skipped_imports] on the two loaded tables. *)
Definition check_skipped_imports
  (existing_df new_df : list row) (similarity_threshold : Q)
  : result (list candidate) :=
  names1 <- combine_name_parts new_df ;;
  names2 <- combine_name_parts existing_df ;;
  find_potential_duplicates (map Some names1) (map Some names2)
                            similarity_threshold.

(** The script body (lines 206-218) after argument parsing, on the
    tables the two files hold. *)
Definition main (similarity_threshold : Q) (existing_df new_df : list row)
  : result (list candidate) :=
  if Qltb similarity_threshold 0 || Qltb 1 similarity_threshold
  then Err (ValueError (lit "Similarity threshold must be between 0 and 1"))
  else check_skipped_imports existing_df new_df similarity_threshold.
End Matcher.

(** *** Two runs *)

(** Two candidates that differ at most in the order of their matches and
    in the way the similarity is written as a fraction. *)
Definition same_candidate (c1 c2 : candidate) : Prop :=
  name c1 = name c2
  /\ match_type c1 = match_type c2
  /\ (similarity c1 == similarity c2)%Q
  /\ Permutation (existing_matches c1) (existing_matches c2).

(** The answers to one query in two runs: none in both, or the same
    candidate. *)
Definition same_answer (a1 a2 : option candidate) : Prop :=
  match a1, a2 with
  | Some c1, Some c2 => same_candidate c1 c2
  | None, None => True
  | _, _ => False
  end.

(** Two outcomes of a call: the same exception, or reports with the same
    candidates, in the same order up to [same_candidate]. *)
Definition same_outcome (r1 r2 : result (list candidate)) : Prop :=
  match r1, r2 with
  | Ok report1, Ok report2 => Forall2 same_candidate report1 report2
  | Err e1, Err e2 => e1 = e2
  | _, _ => False
  end.

(** *** Combining, then splitting *)

(** [combine_name_parts] on the row (last, first, middle), then the loop
    body of [parse_fullnames] on the string obtained. *)
Definition split_of_combine (last first middle : str)
  : result (str * str * str) :=
  full_name <- combine_row (Some last, Some first, Some middle) ;;
  parse_fullname (Some full_name).

(** What follows the first name in the combined string. *)
Definition middle_suffix (middle : str) : str :=
  match middle with
  | [] => []
  | _ :: _ => " "%char :: middle
  end.

(** Name parts in the shape [parse_fullnames] expects to find: no part
    holds a comma; the last name is non-empty and has no whitespace at
    either end; the first name is one or more words separated by single
    spaces; the middle name is empty or one word that ends with a period,
    and when it is empty the first name does not end with a period. *)
Definition canonical_parts (last first middle : str) : Prop :=
  last <> [] /\ strip last = last /\ count_char comma last = 0
  /\ first <> [] /\ join (lit " ") (split_ws first) = first
  /\ count_char comma first = 0
  /\ count_char comma middle = 0 /\ existsb isspace middle = false
  /\ match middle with
     | [] => ends_with_period first = false
     | _ :: _ => ends_with_period middle = true
     end.

End CheckSkippedImports.
Import CheckSkippedImports.

(** ** difflib.SequenceMatcher

    The ratio of [SequenceMatcher(None, a, b)], with no junk predicate and
    the automatic junk heuristic, as CPython computes it. *)

Module Difflib.

Definition char_at (s : str) (i : nat) : ascii := nth i s "000"%char.

(** With [autojunk], a character of [b] occurring more than
    [len(b) // 100 + 1] times is left out of the index [b2j] when
    [len(b) >= 200]. *)
Definition popular (b : str) (c : ascii) : bool :=
  (200 <=? length b) && (length b / 100 + 1 <? count_char c b).

(** One row of [j2len]: at [j], the length of the longest match ending
    with [a[i]] and [b[j]], for the positions [j] of [b2j[a[i]]] inside
    [blo, bhi). *)
Definition next_row (a b : str) (blo bhi i : nat) (prev : list nat)
  : list nat :=
  map (fun j =>
         if (blo <=? j) && (j <? bhi)
            && Ascii.eqb (char_at b j) (char_at a i)
            && negb (popular b (char_at b j))
         then S (match j with 0 => 0 | S j' => nth j' prev 0 end)
         else 0)
      (seq 0 (length b)).

(** The scan of [find_longest_match]: [best] is (besti, bestj, bestsize). *)
Definition scan_row (i blo bhi : nat) (new : list nat) (best : nat * nat * nat)
  : nat * nat * nat :=
  fold_left
    (fun best j =>
       let k := nth j new 0 in
       let '(_, _, bestsize) := best in
       if bestsize <? k then (i + 1 - k, j + 1 - k, k) else best)
    (seq blo (bhi - blo)) best.

Fixpoint scan (a b : str) (blo bhi : nat) (idxs : list nat) (prev : list nat)
  (best : nat * nat * nat) : nat * nat * nat :=
  match idxs with
  | [] => best
  | i :: idxs' =>
      let new := next_row a b blo bhi i prev in
      scan a b blo bhi idxs' new (scan_row i blo bhi new best)
  end.

(** The two loops that extend the match over popular characters. *)
Fixpoint extend_left (a b : str) (alo blo : nat) (fuel : nat)
  (best : nat * nat * nat) : nat * nat * nat :=
  let '(besti, bestj, bestsize) := best in
  match fuel with
  | 0 => best
  | S fuel' =>
      if (alo <? besti) && (blo <? bestj)
         && Ascii.eqb (char_at a (besti - 1)) (char_at b (bestj - 1))
      then extend_left a b alo blo fuel' (besti - 1, bestj - 1, S bestsize)
      else best
  end.

Fixpoint extend_right (a b : str) (ahi bhi : nat) (fuel : nat)
  (best : nat * nat * nat) : nat * nat * nat :=
  let '(besti, bestj, bestsize) := best in
  match fuel with
  | 0 => best
  | S fuel' =>
      if (besti + bestsize <? ahi) && (bestj + bestsize <? bhi)
         && Ascii.eqb (char_at a (besti + bestsize)) (char_at b (bestj + bestsize))
      then extend_right a b ahi bhi fuel' (besti, bestj, S bestsize)
      else best
  end.

Definition find_longest_match (a b : str) (alo ahi blo bhi : nat)
  : nat * nat * nat :=
  let best := scan a b blo bhi (seq alo (ahi - alo)) [] (alo, blo, 0) in
  let best := extend_left a b alo blo (length a) best in
  extend_right a b ahi bhi (length a) best.

(** The total size of the blocks of [get_matching_blocks]: the longest
    match, then the pieces on its left and on its right.  Each piece is
    shorter than the range it comes from, so a fuel above the length of
    [a] is never used up. *)
Fixpoint matches (a b : str) (fuel : nat) (alo ahi blo bhi : nat) : nat :=
  match fuel with
  | 0 => 0
  | S fuel' =>
      let '(i, j, k) := find_longest_match a b alo ahi blo bhi in
      match k with
      | 0 => 0
      | _ =>
          k
          + (if (alo <? i) && (blo <? j)
             then matches a b fuel' alo i blo j else 0)
          + (if (i + k <? ahi) && (j + k <? bhi)
             then matches a b fuel' (i + k) ahi (j + k) bhi else 0)
      end
  end.

(** The double nearest to [n / d] for [0 < n <= d], ties to even: a
    53-bit numerator over a power of two. *)
Definition nearest_double (n d : Z) : Q :=
  let e0 := (52 + Z.log2 d - Z.log2 n)%Z in
  let e := (if n * 2 ^ e0 <? 2 ^ 52 * d then e0 + 1 else e0)%Z in
  let q := (n * 2 ^ e / d)%Z in
  let r := (n * 2 ^ e mod d)%Z in
  let m := (if (d <? 2 * r) || ((d =? 2 * r) && Z.odd q) then q + 1 else q)%Z in
  Qred (Qmake m (Z.to_pos (2 ^ e))).

(** [_calculate_ratio(matches, length)] *)
Definition calculate_ratio (m length : nat) : Q :=
  match length, m with
  | 0, _ => 1
  | _, 0 => 0
  | _, _ => nearest_double (2 * Z.of_nat m) (Z.of_nat length)
  end.

Definition ratio (a b : str) : Q :=
  calculate_ratio
    (matches a b (S (length a)) 0 (length a) 0 (length b))
    (length a + length b).

End Difflib.

(** ** Two iteration orders of a set *)

Module SetOrders.

Definition dedup (l : list str) : list str := nodup (list_eq_dec ascii_dec) l.

(** Members in the order of their last insertion. *)
Definition forward : set_order :=
  SetOrder dedup
    (fun l => NoDup_nodup (list_eq_dec ascii_dec) l)
    (fun l x => nodup_In (list_eq_dec ascii_dec) l x).

(** The same members, the other way round. *)
Definition backward : set_order :=
  SetOrder (fun l => rev (dedup l))
    (fun l => NoDup_rev (NoDup_nodup (list_eq_dec ascii_dec) l))
    (fun l x => iff_trans (iff_sym (in_rev (dedup l) x))
                          (nodup_In (list_eq_dec ascii_dec) l x)).

End SetOrders.


(** ** parse_employer_bu.py: the date of a list, name columns, addresses *)

Module EmployerList.

(** A table loaded with [dtype=str]: its columns in order, each a label
    and the cells of the column.  Labels are distinct. *)
Definition frame : Type := list (str * list (option str)).

(** [df[c]] *)
Fixpoint column (df : frame) (c : str) : result (list (option str)) :=
  match df with
  | [] => Err (KeyError c)
  | (label, cells) :: df' =>
      if str_eqb label c then Ok cells else column df' c
  end.

(** [pd.isna(x)] on a cell. *)
Definition isna (x : option str) : bool :=
  match x with
  | None => true
  | Some _ => false
  end.

(** *** load_list, after the file is read *)

Inductive runtime_error : Type :=
| RuntimeError (msg : str).

(** [col.str.strip()] on one cell: NaN stays NaN. *)
Definition strip_cell (x : option str) : option str :=
  match x with
  | Some s => Some (strip s)
  | None => None
  end.

Definition is_empty_cell (x : option str) : bool :=
  match x with
  | Some [] => true
  | _ => false
  end.

(** Lines 34-50 of [load_list] on the table read from the file: every
    column is stripped; an empty string left in any cell is an error. *)
Definition load_list (df : frame) : runtime_error + frame :=
  let df := map (fun col => (fst col, map strip_cell (snd col))) df in
  if existsb (fun col => existsb is_empty_cell (snd col)) df
  then inl (RuntimeError
              (lit "Input data has empty (non-nan) cells, please check data quality"))
  else inr df.

(** *** extract_date and get_list_identifier *)

(** [\d] on a character of Latin-1. *)
Definition is_digit (c : ascii) : bool :=
  let n := nat_of_ascii c in (48 <=? n) && (n <=? 57).

(** [int(s)] on a string of digits. *)
Definition int_of_digits (s : str) : nat :=
  fold_left (fun acc c => 10 * acc + (nat_of_ascii c - 48)) s 0.

(** The pattern [(\d{4})\.(\d{2})\.(\d{2})] at the start of [s]: its
    three groups. *)
Definition match_date (s : str) : option (str * str * str) :=
  match s with
  | y1 :: y2 :: y3 :: y4 :: p1 :: m1 :: m2 :: p2 :: d1 :: d2 :: _ =>
      if forallb is_digit [y1; y2; y3; y4; m1; m2; d1; d2]
         && Ascii.eqb p1 "."%char && Ascii.eqb p2 "."%char
      then Some ([y1; y2; y3; y4], [m1; m2], [d1; d2])
      else None
  | _ => None
  end.

(** [re.search(pattern, text)]: the leftmost match. *)
Fixpoint search_date (text : str) : option (str * str * str) :=
  match match_date text with
  | Some groups => Some groups
  | None =>
      match text with
      | [] => None
      | _ :: text' => search_date text'
      end
  end.

Definition is_leap (year : nat) : bool :=
  (year mod 4 =? 0) && (negb (year mod 100 =? 0) || (year mod 400 =? 0)).

Definition days_in_month (year month : nat) : nat :=
  match month with
  | 1 | 3 | 5 | 7 | 8 | 10 | 12 => 31
  | 4 | 6 | 9 | 11 => 30
  | 2 => if is_leap year then 29 else 28
  | _ => 0
  end.

(** [datetime.MAXYEAR], 9999. *)
Definition MAXYEAR : nat := 99 * 101.

(** [datetime.date(year, month, day)] does not raise ValueError. *)
Definition valid_date (year month day : nat) : bool :=
  (1 <=? year) && (year <=? MAXYEAR)
  && (1 <=? month) && (month <=? 12)
  && (1 <=? day) && (day <=? days_in_month year month).

Definition extract_date (text : str) : option str :=
  match search_date text with
  | Some (year, month, day) =>
      if valid_date (int_of_digits year) (int_of_digits month)
                    (int_of_digits day)
      then Some (year ++ lit "." ++ month ++ lit "." ++ day)
      else None
  | None => None
  end.

(** [get_list_identifier] on the name of the input file. *)
Definition get_list_identifier (infile_name : str) : result str :=
  match extract_date infile_name with
  | Some date_received => Ok (lit "BU List Employer " ++ date_received)
  | None =>
      Err (ValueError (lit "Input BU file needs to have the date received somewhere in its filename in the format YYYY.MM.DD. We could not parse a valid date."))
  end.

(** *** check_names_lfm *)

Definition check_names_lfm (df : frame) (lastc firstc middlec : str)
  : result unit :=
  last <- column df lastc ;;
  if existsb isna last
  then Err (ValueError (lit "Missing data in Last name column '" ++ lastc
                        ++ lit "'"))
  else
    first <- column df firstc ;;
    if existsb isna first
    then Err (ValueError (lit "Missing data in First name column '" ++ firstc
                          ++ lit "'"))
    else
      middle <- column df middlec ;;
      Ok tt.

(** *** str_combine and make_address_combined *)

(** [s.rstrip(",")] *)
Fixpoint rstrip_commas (s : str) : str :=
  match s with
  | [] => []
  | c :: s' =>
      match rstrip_commas s' with
      | [] => if Ascii.eqb c comma then [] else [c]
      | r => c :: r
      end
  end.

(** The truth value of a cell: NaN is a float other than zero, hence
    true; a string is true when it is not empty. *)
Definition truthy (x : option str) : bool :=
  match x with
  | None => true
  | Some [] => false
  | Some (_ :: _) => true
  end.

(** The elements kept by [str_combine], cleaned. *)
Definition kept (e : list (option str)) : list str :=
  flat_map (fun s => match s with
                     | Some (c :: r) => [rstrip_commas (strip (c :: r))]
                     | _ => []
                     end) e.

Definition str_combine (e : list (option str)) : str :=
  join (lit " ") (kept e).

(** A row of the five address columns: line 1, line 2, city, state, zip. *)
Definition address_row : Type :=
  option str * option str * option str * option str * option str.

(** The body of the loop of [make_address_combined] (lines 212-220). *)
Definition address_combined (r : address_row) : str :=
  let '(line1, line2, town, st, zip) := r in
  let addr := str_combine [line1; line2] in
  if truthy town || truthy st || truthy zip
  then
    (match addr with
     | [] => addr
     | _ :: _ => addr ++ lit ", "
     end) ++ str_combine [town; st; zip]
  else addr.

(** The column "Address Combined". *)
Definition make_address_combined (rows : list address_row) : list str :=
  map address_combined rows.

(** A cell as [load_list] leaves it: NaN, or a non-empty string without
    whitespace at either end. *)
Definition clean_cell (x : option str) : Prop :=
  match x with
  | None => True
  | Some s => s <> [] /\ strip s = s
  end.

End EmployerList.
Import EmployerList.

(** ** Facts about the string operations *)

Module StrFacts.

Lemma str_eqb_eq (a b : str) : str_eqb a b = true <-> a = b.
Proof.
  unfold str_eqb. destruct (list_eq_dec ascii_dec a b); split; congruence.
Qed.

Lemma str_eqb_refl (a : str) : str_eqb a a = true.
Proof. now apply str_eqb_eq. Qed.

Lemma isspace_comma : isspace comma = false.
Proof. reflexivity. Qed.

Lemma blank_app (x y : str) : blank (x ++ y) = blank x && blank y.
Proof. apply forallb_app. Qed.

(** *** Stripping *)

Lemma blank_lstrip (s : str) : blank (lstrip s) = blank s.
Proof.
  induction s as [|c s IH]; simpl; [reflexivity|].
  destruct (isspace c) eqn:Hc; simpl; [exact IH | now rewrite Hc].
Qed.

Lemma rstrip_nil_iff (s : str) : rstrip s = [] <-> blank s = true.
Proof.
  induction s as [|c s IH]; simpl; [tauto|].
  destruct (rstrip s) as [|r rs] eqn:Hr.
  - destruct (isspace c); simpl; split; try discriminate; intros _.
    + now apply IH.
    + reflexivity.
  - split; [discriminate|]. intros H. apply andb_true_iff in H.
    destruct H as [_ H]. apply IH in H. discriminate.
Qed.

Lemma strip_nil_iff (s : str) : strip s = [] <-> blank s = true.
Proof. unfold strip. rewrite rstrip_nil_iff, blank_lstrip. tauto. Qed.

Lemma lstrip_length (s : str) : length (lstrip s) <= length s.
Proof.
  induction s as [|c s IH]; simpl; [lia|].
  destruct (isspace c); simpl; lia.
Qed.

Lemma rstrip_length (s : str) : length (rstrip s) <= length s.
Proof.
  induction s as [|c s IH]; simpl; [lia|].
  destruct (rstrip s); [destruct (isspace c)|]; simpl in *; lia.
Qed.

Lemma lstrip_fixed (s : str) : length (lstrip s) = length s -> lstrip s = s.
Proof.
  destruct s as [|c s]; simpl; [reflexivity|].
  destruct (isspace c); [|reflexivity].
  intros H. pose proof (lstrip_length s). lia.
Qed.

(** A string that [strip] leaves alone is left alone by both halves. *)
Lemma strip_fixed (s : str) : strip s = s -> lstrip s = s /\ rstrip s = s.
Proof.
  unfold strip. intros H.
  assert (Hl : lstrip s = s).
  { apply lstrip_fixed. pose proof (rstrip_length (lstrip s)).
    pose proof (lstrip_length s). rewrite H in *. lia. }
  rewrite Hl in H. now split.
Qed.

Lemma lstrip_app (x y : str) : x <> [] -> lstrip x = x -> lstrip (x ++ y) = x ++ y.
Proof.
  destruct x as [|c x]; [congruence|]. intros _. simpl.
  destruct (isspace c) eqn:Hc; [|reflexivity].
  intros H. pose proof (lstrip_length x).
  apply (f_equal (@length ascii)) in H. simpl in H. lia.
Qed.

Lemma rstrip_app (x y : str) : rstrip y <> [] -> rstrip (x ++ y) = x ++ rstrip y.
Proof.
  intros Hy. induction x as [|c x IH]; simpl; [reflexivity|].
  rewrite IH. destruct (x ++ rstrip y) eqn:E; [|reflexivity].
  apply app_eq_nil in E. tauto.
Qed.

Lemma rstrip_space_end (x : str) (w : ascii) :
  isspace w = true -> rstrip (x ++ [w]) = rstrip x.
Proof.
  intros Hw. induction x as [|c x IH]; simpl.
  - now rewrite Hw.
  - now rewrite IH.
Qed.

(** *** Splitting on a separator *)

Lemma split_on_length (sep : ascii) (s : str) :
  length (split_on sep s) = S (count_char sep s).
Proof.
  unfold count_char. induction s as [|c s IH]; simpl; [reflexivity|].
  destruct (Ascii.eqb_spec c sep) as [->|Hne].
  - destruct (ascii_dec sep sep); [|congruence]. simpl. now rewrite IH.
  - destruct (ascii_dec c sep); [congruence|].
    destruct (split_on sep s); simpl in *; lia.
Qed.

Lemma split_on_absent (sep : ascii) (s : str) :
  count_char sep s = 0 -> split_on sep s = [s].
Proof.
  unfold count_char. induction s as [|c s IH]; simpl; [reflexivity|].
  destruct (ascii_dec c sep) as [->|Hne]; [discriminate|].
  intros H. rewrite (proj2 (Ascii.eqb_neq c sep) Hne), (IH H). reflexivity.
Qed.

Lemma split_on_app (sep : ascii) (x y : str) :
  count_char sep x = 0 -> split_on sep (x ++ sep :: y) = x :: split_on sep y.
Proof.
  unfold count_char. induction x as [|c x IH]; simpl.
  - intros _. now rewrite Ascii.eqb_refl.
  - destruct (ascii_dec c sep) as [->|Hne]; [discriminate|].
    intros H. rewrite (proj2 (Ascii.eqb_neq c sep) Hne), (IH H). reflexivity.
Qed.

Lemma count_char_app (c : ascii) (x y : str) :
  count_char c (x ++ y) = count_char c x + count_char c y.
Proof. apply count_occ_app. Qed.

Lemma split_on_one_comma (s : str) :
  count_char comma s = 1 ->
  split_on comma s = [before_comma s; after_comma s].
Proof.
  unfold count_char. induction s as [|c s IH]; simpl; [discriminate|].
  destruct (ascii_dec c comma) as [->|Hne].
  - rewrite Ascii.eqb_refl. intros H.
    rewrite split_on_absent; [reflexivity|]. unfold count_char. lia.
  - rewrite (proj2 (Ascii.eqb_neq c comma) Hne). intros H.
    now rewrite (IH H).
Qed.

End StrFacts.
Import StrFacts.

(** ** Splitting a full name: which inputs fail, and how *)

Section ParseFullnameErrors.

Lemma parse_fullname_one_comma (s : str) :
  strip s <> [] -> count_char comma s = 1 ->
  parse_fullname (Some s) =
    let parts := split_ws (strip (after_comma s)) in
    match rev parts with
    | [] => Err (IndexError (lit "list index out of range"))
    | p :: _ =>
        if ends_with_period p
        then Ok (strip (before_comma s), join (lit " ") (removelast parts), p)
        else Ok (strip (before_comma s), join (lit " ") parts, [])
    end.
Proof.
  intros Hs Hc. unfold parse_fullname.
  destruct (strip s) as [|c0 s0] eqn:E; [congruence|].
  now rewrite (split_on_one_comma s Hc).
Qed.

Lemma parse_fullname_comma_count (s : str) :
  count_char comma s <> 1 ->
  exists msg, parse_fullname (Some s) = Err (ValueError msg).
Proof.
  intros Hc. unfold parse_fullname.
  destruct (strip s) as [|c0 s0]; [eauto|].
  pose proof (split_on_length comma s) as Hlen.
  destruct (split_on comma s) as [|f1 [|f2 [|f3 fs]]]; simpl in Hlen; eauto.
  exfalso. apply Hc. lia.
Qed.

End ParseFullnameErrors.

(** C9: splitting one cell raises the ValueError of an invalid name exactly
    when the cell is not a string that is non-empty after trimming or its
    number of commas is not one. *)
Theorem parse_fullname_invalid_name_iff (fullname : option str) :
  (exists msg, parse_fullname fullname = Err (ValueError msg))
  <-> malformed fullname.
Proof.
  destruct fullname as [s|]; [|simpl; split; eauto].
  unfold malformed. split.
  - intros [msg H].
    destruct (strip s) as [|c0 s0] eqn:E; [now left|]. right. intros Hc.
    rewrite parse_fullname_one_comma in H by (trivial; congruence).
    cbv zeta in H.
    destruct (rev (split_ws (strip (after_comma s)))) as [|p ps];
      [discriminate|].
    destruct (ends_with_period p); discriminate.
  - intros [H|H].
    + unfold parse_fullname. rewrite H. eauto.
    + now apply parse_fullname_comma_count.
Qed.

(** C10: a string that is not blank and has one comma, with nothing but
    whitespace after the comma, gives no token, and splitting it raises
    IndexError at [parts[-1]]: neither a name nor a ValueError. *)
Theorem parse_fullname_blank_rest_index_error (s : str) :
  strip s <> [] ->
  count_char comma s = 1 ->
  blank (after_comma s) = true ->
  split_ws (strip (after_comma s)) = []
  /\ parse_fullname (Some s) = Err (IndexError (lit "list index out of range")).
Proof.
  intros Hs Hc Hb.
  assert (E : strip (after_comma s) = []) by now apply strip_nil_iff.
  split; [now rewrite E|].
  rewrite parse_fullname_one_comma by assumption. now rewrite E.
Qed.

Lemma parse_fullname_blank_rest_index_error_witness :
  split_ws (strip (after_comma (lit "Doe,   "))) = []
  /\ parse_fullname (Some (lit "Doe,   "))
     = Err (IndexError (lit "list index out of range")).
Proof.
  apply (parse_fullname_blank_rest_index_error (lit "Doe,   "));
    [discriminate | reflexivity | reflexivity].
Defined.

(** ** Tokens *)

Module Words.

Lemma split_ws_space (c : ascii) (s : str) :
  isspace c = true -> split_ws (c :: s) = split_ws s.
Proof. intros H. simpl. now rewrite H. Qed.

Lemma split_ws_nonspace (c : ascii) (s : str) :
  isspace c = false -> split_ws (c :: s) <> [].
Proof.
  intros H. simpl. rewrite H. destruct s as [|d s]; [discriminate|].
  destruct (isspace d); [discriminate|].
  destruct (split_ws (d :: s)); discriminate.
Qed.

Lemma split_ws_blank (s : str) : blank s = true -> split_ws s = [].
Proof.
  induction s as [|c s IH]; simpl; [reflexivity|].
  intros H. apply andb_true_iff in H. destruct H as [Hc Hs].
  rewrite Hc. auto.
Qed.

Lemma split_ws_app_space (x y : str) (w : ascii) :
  isspace w = true -> split_ws (x ++ w :: y) = split_ws x ++ split_ws y.
Proof.
  intros Hw. induction x as [|c x IH]; [now apply split_ws_space|].
  destruct (isspace c) eqn:Hc.
  - rewrite <- app_comm_cons, !split_ws_space by assumption. exact IH.
  - destruct x as [|d x].
    + simpl. rewrite Hc, Hw. reflexivity.
    + change ((c :: d :: x) ++ w :: y) with (c :: (d :: x) ++ w :: y).
      change (split_ws (c :: (d :: x) ++ w :: y))
        with (if isspace c then split_ws ((d :: x) ++ w :: y)
              else if isspace d then [c] :: split_ws ((d :: x) ++ w :: y)
              else match split_ws ((d :: x) ++ w :: y) with
                   | t :: ts => (c :: t) :: ts
                   | [] => [[c]]
                   end).
      change (split_ws (c :: d :: x))
        with (if isspace c then split_ws (d :: x)
              else if isspace d then [c] :: split_ws (d :: x)
              else match split_ws (d :: x) with
                   | t :: ts => (c :: t) :: ts
                   | [] => [[c]]
                   end).
      rewrite Hc, IH. destruct (isspace d) eqn:Hd; [reflexivity|].
      pose proof (split_ws_nonspace d x Hd) as Hne.
      destruct (split_ws (d :: x)); [congruence | reflexivity].
Qed.

Lemma split_ws_app_blank (x b : str) :
  blank b = true -> split_ws (x ++ b) = split_ws x.
Proof.
  destruct b as [|w b]; simpl; intros H.
  - now rewrite app_nil_r.
  - apply andb_true_iff in H. destruct H as [Hw Hb].
    rewrite split_ws_app_space by assumption.
    rewrite (split_ws_blank b Hb). apply app_nil_r.
Qed.

Lemma split_ws_lstrip (s : str) : split_ws (lstrip s) = split_ws s.
Proof.
  induction s as [|c s IH]; [reflexivity|]. simpl lstrip.
  destruct (isspace c) eqn:Hc; [|reflexivity].
  now rewrite split_ws_space.
Qed.

Lemma rstrip_decompose (s : str) :
  exists b, blank b = true /\ s = rstrip s ++ b.
Proof.
  induction s as [|c s [b [Hb IH]]]; [now exists []|]. simpl.
  destruct (rstrip s) as [|r rs] eqn:Hr.
  - destruct (isspace c) eqn:Hc.
    + exists (c :: s). split; [|reflexivity]. simpl. rewrite Hc.
      now apply rstrip_nil_iff.
    + exists b. split; [assumption|]. simpl in IH. now rewrite <- IH.
  - exists b. split; [assumption|]. rewrite <- app_comm_cons. now rewrite <- IH.
Qed.

Lemma split_ws_rstrip (s : str) : split_ws (rstrip s) = split_ws s.
Proof.
  destruct (rstrip_decompose s) as [b [Hb E]].
  rewrite E at 2. now rewrite split_ws_app_blank.
Qed.

Lemma split_ws_strip (s : str) : split_ws (strip s) = split_ws s.
Proof. unfold strip. now rewrite split_ws_rstrip, split_ws_lstrip. Qed.

Lemma split_ws_word (t : str) : word t -> split_ws t = [t].
Proof.
  intros [Hne Hsp]. induction t as [|c t IH]; [congruence|].
  simpl in Hsp. apply orb_false_iff in Hsp. destruct Hsp as [Hc Ht].
  simpl. rewrite Hc. destruct t as [|d t]; [reflexivity|].
  assert (Hd : isspace d = false).
  { simpl in Ht. now apply orb_false_iff in Ht. }
  rewrite Hd, IH by (trivial; discriminate). reflexivity.
Qed.

Lemma rstrip_word (t : str) : word t -> rstrip t = t.
Proof.
  intros [Hne Hsp]. induction t as [|c t IH]; [congruence|].
  simpl in Hsp. apply orb_false_iff in Hsp. destruct Hsp as [Hc Ht].
  simpl. destruct t as [|d t]; [simpl; now rewrite Hc|].
  rewrite IH by (trivial; discriminate). reflexivity.
Qed.

(** Every token of [split()] is a word. *)
Lemma split_ws_words (s : str) : Forall word (split_ws s).
Proof.
  induction s as [|c s IH]; [constructor|]. simpl.
  destruct (isspace c) eqn:Hc; [assumption|].
  assert (Hw : word [c]) by (split; [discriminate | simpl; now rewrite Hc]).
  assert (Hone : Forall word [[c]]) by (constructor; [exact Hw | constructor]).
  destruct s as [|d s]; [exact Hone|].
  destruct (isspace d) eqn:Hd; [now constructor|].
  destruct (split_ws (d :: s)) as [|t ts]; [exact Hone|].
  inversion IH as [|? ? [Hne Hsp] Hts]; subst. constructor; [|assumption].
  split; [discriminate|]. simpl. now rewrite Hc.
Qed.

(** *** Joining words *)

Lemma join_cons (sep p : str) (ps : list str) :
  ps <> [] -> join sep (p :: ps) = p ++ sep ++ join sep ps.
Proof. destruct ps; [congruence | reflexivity]. Qed.

Lemma join_words_nonempty (sep : str) (ts : list str) :
  Forall word ts -> ts <> [] -> join sep ts <> [].
Proof.
  intros H Hne. destruct ts as [|t ts]; [congruence|].
  inversion H as [|? ? [Ht _] _]; subst.
  destruct ts; simpl; [assumption|].
  intros E. now apply app_eq_nil in E.
Qed.

Lemma rstrip_join_words (sep : str) (ts : list str) :
  Forall word ts -> ts <> [] -> rstrip (join sep ts) = join sep ts.
Proof.
  induction ts as [|t ts IH]; [congruence|]. intros H _.
  inversion H as [|? ? Ht Hts]; subst.
  destruct ts as [|t' ts]; [now apply rstrip_word|].
  rewrite join_cons by discriminate.
  assert (E : rstrip (join sep (t' :: ts)) = join sep (t' :: ts))
    by (apply IH; [assumption | discriminate]).
  rewrite !app_assoc, rstrip_app; rewrite E; [reflexivity|].
  apply join_words_nonempty; [assumption | discriminate].
Qed.

Lemma ends_with_period_app (x p : str) :
  p <> [] -> ends_with_period (x ++ p) = ends_with_period p.
Proof.
  intros Hp. unfold ends_with_period. rewrite rev_app_distr.
  destruct (rev p) eqn:E; [|reflexivity].
  apply (f_equal (@rev ascii)) in E. rewrite rev_involutive in E.
  simpl in E. congruence.
Qed.

Lemma join_snoc (sep p : str) (ts : list str) :
  ts <> [] -> join sep (ts ++ [p]) = join sep ts ++ sep ++ p.
Proof.
  induction ts as [|t ts IH]; [congruence|]. intros _.
  destruct ts as [|t' ts]; [reflexivity|].
  change ((t :: t' :: ts) ++ [p]) with (t :: (t' :: ts) ++ [p]).
  rewrite join_cons by (simpl; discriminate).
  rewrite IH by discriminate.
  rewrite (join_cons sep t (t' :: ts)) by discriminate.
  now rewrite !app_assoc.
Qed.

Lemma ends_with_period_join_snoc (sep p : str) (ts : list str) :
  p <> [] -> ends_with_period (join sep (ts ++ [p])) = ends_with_period p.
Proof.
  intros Hp. destruct ts as [|t ts]; [reflexivity|].
  rewrite join_snoc by discriminate.
  rewrite app_assoc. now apply ends_with_period_app.
Qed.

End Words.
Import Words.

(** ** Combining name parts, then splitting the result *)

Section RoundTrip.

Lemma before_comma_app (x y : str) :
  count_char comma x = 0 -> before_comma (x ++ comma :: y) = x.
Proof.
  unfold count_char. induction x as [|c x IH]; simpl; [reflexivity|].
  destruct (ascii_dec c comma) as [->|Hne]; [discriminate|].
  intros H. rewrite (proj2 (Ascii.eqb_neq c comma) Hne), (IH H). reflexivity.
Qed.

Lemma after_comma_app (x y : str) :
  count_char comma x = 0 -> after_comma (x ++ comma :: y) = y.
Proof.
  unfold count_char. induction x as [|c x IH]; simpl; [reflexivity|].
  destruct (ascii_dec c comma) as [->|Hne]; [discriminate|].
  intros H. rewrite (proj2 (Ascii.eqb_neq c comma) Hne). exact (IH H).
Qed.

Context (last first middle : str).

Lemma first_words (canonical : canonical_parts last first middle) :
  split_ws first <> [] /\ rstrip first = first.
Proof.
  pose proof canonical as (_ & _ & _ & Hf & Hj & _).
  assert (Hne : split_ws first <> []).
  { intros E. rewrite E in Hj. simpl in Hj. congruence. }
  split; [assumption|].
  rewrite <- Hj. apply rstrip_join_words; [apply split_ws_words | assumption].
Qed.

Lemma middle_word (canonical : canonical_parts last first middle) :
  middle <> [] -> word middle.
Proof.
  pose proof canonical as (_ & _ & _ & _ & _ & _ & _ & Hsp & _).
  intros H. now split.
Qed.

Lemma combine_row_canonical (canonical : canonical_parts last first middle) :
  combine_row (Some last, Some first, Some middle)
  = Ok (last ++ comma :: " "%char :: first ++ middle_suffix middle).
Proof.
  pose proof canonical as (Hl & Hls & _ & Hf & _).
  destruct (strip_fixed last Hls) as [Hll _].
  destruct (first_words canonical) as [_ Hfr].
  assert (E : strip (last ++ lit ", " ++ first ++ lit " " ++ middle)
              = last ++ comma :: " "%char :: first ++ middle_suffix middle).
  { unfold strip. rewrite lstrip_app by assumption.
    change (lit ", ") with [comma; " "%char]. change (lit " ") with [" "%char].
    destruct middle as [|c m] eqn:Em.
    - simpl middle_suffix. rewrite !app_nil_r.
      replace (last ++ [comma; " "%char] ++ first ++ [" "%char])
        with ((last ++ [comma; " "%char] ++ first) ++ [" "%char])
        by now rewrite <- !app_assoc.
      rewrite rstrip_space_end by reflexivity.
      rewrite app_assoc, rstrip_app; rewrite Hfr; [|assumption].
      now rewrite <- app_assoc.
    - rewrite <- Em in *. assert (Hw : word middle).
      { apply (middle_word canonical). rewrite Em. discriminate. }
      replace (last ++ [comma; " "%char] ++ first ++ [" "%char] ++ middle)
        with ((last ++ [comma; " "%char] ++ first ++ [" "%char]) ++ middle)
        by now rewrite <- !app_assoc.
      rewrite rstrip_app; rewrite (rstrip_word middle Hw); [|apply Hw].
      rewrite Em. simpl middle_suffix. now rewrite <- !app_assoc. }
  unfold combine_row, clean_name_part. rewrite E.
  destruct last as [|c l]; [congruence | reflexivity].
Qed.

Lemma rest_tokens (canonical : canonical_parts last first middle) :
  split_ws (strip (" "%char :: first ++ middle_suffix middle))
  = split_ws first ++ match middle with [] => [] | _ :: _ => [middle] end.
Proof.
  rewrite split_ws_strip, split_ws_space by reflexivity.
  pose proof (middle_word canonical) as Hw.
  destruct middle as [|c m]; simpl middle_suffix.
  - now rewrite !app_nil_r.
  - rewrite split_ws_app_space by reflexivity.
    rewrite (split_ws_word (c :: m)); [reflexivity|].
    apply Hw. discriminate.
Qed.

Lemma count_comma_rest (canonical : canonical_parts last first middle) :
  count_char comma (" "%char :: first ++ middle_suffix middle) = 0.
Proof.
  pose proof canonical as (_ & _ & _ & _ & _ & Hcf & Hcm & _).
  change (" "%char :: first ++ middle_suffix middle)
    with ([" "%char] ++ first ++ middle_suffix middle).
  rewrite !count_char_app, Hcf.
  destruct middle as [|c m]; [reflexivity|].
  simpl middle_suffix.
  change (" "%char :: c :: m) with ([" "%char] ++ c :: m).
  now rewrite count_char_app, Hcm.
Qed.

Lemma split_canonical (canonical : canonical_parts last first middle) :
  parse_fullname
    (Some (last ++ comma :: " "%char :: first ++ middle_suffix middle))
  = Ok (last, first, middle).
Proof.
  pose proof canonical as (_ & Hls & Hcl & _ & Hj & _ & _ & _ & Hp).
  destruct (first_words canonical) as [Hne _].
  set (rest := " "%char :: first ++ middle_suffix middle).
  rewrite parse_fullname_one_comma.
  - rewrite before_comma_app, after_comma_app by assumption.
    cbv zeta. unfold rest. rewrite (rest_tokens canonical), Hls.
    destruct middle as [|c m] eqn:Em.
    + rewrite app_nil_r.
      destruct (rev (split_ws first)) as [|p ps] eqn:Er.
      { apply (f_equal (@rev str)) in Er. rewrite rev_involutive in Er.
        simpl in Er. congruence. }
      assert (Ets : split_ws first = rev ps ++ [p]).
      { apply (f_equal (@rev str)) in Er. now rewrite rev_involutive in Er. }
      assert (Hpw : word p).
      { pose proof (split_ws_words first) as Hw. rewrite Ets in Hw.
        apply Forall_app in Hw. destruct Hw as [_ Hw]. now inversion Hw. }
      assert (Hpp : ends_with_period p = false).
      { rewrite <- (ends_with_period_join_snoc (lit " ") p (rev ps))
          by apply Hpw.
        now rewrite <- Ets, Hj. }
      now rewrite Hpp, Hj.
    + rewrite rev_app_distr. simpl rev. simpl app at 1. cbv beta iota.
      rewrite Hp, removelast_last, Hj. reflexivity.
  - intros E. apply strip_nil_iff in E. rewrite blank_app in E.
    apply andb_true_iff in E. destruct E as [_ E]. discriminate.
  - rewrite count_char_app.
    change (comma :: rest) with ([comma] ++ rest).
    rewrite count_char_app. unfold rest. rewrite (count_comma_rest canonical), Hcl.
    reflexivity.
Qed.

End RoundTrip.

(** C1 (amended): for name parts in the shape [parse_fullnames] expects,
    combining them and splitting the combined string gives the parts back. *)
Theorem split_of_combine_canonical (last first middle : str) :
  canonical_parts last first middle ->
  split_of_combine last first middle = Ok (last, first, middle).
Proof.
  intros H. unfold split_of_combine.
  rewrite (combine_row_canonical last first middle H). simpl bind.
  now apply split_canonical.
Qed.

Lemma split_of_combine_canonical_witness :
  canonical_parts (lit "Doe") (lit "Jane") (lit "M.")
  /\ split_of_combine (lit "Doe") (lit "Jane") (lit "M.")
     = Ok (lit "Doe", lit "Jane", lit "M.").
Proof.
  assert (H : canonical_parts (lit "Doe") (lit "Jane") (lit "M."))
    by (repeat split; (discriminate || reflexivity)).
  split; [exact H | exact (split_of_combine_canonical _ _ _ H)].
Defined.

(** C1 as stated fails: a middle name without a period is read back as
    part of the first name. *)
Lemma split_of_combine_not_identity :
  ~ (forall last first middle : str,
        strip last <> [] -> strip first <> [] ->
        split_of_combine last first middle = Ok (last, first, middle)).
Proof.
  intros H.
  specialize (H (lit "Smith") (lit "John") (lit "A")).
  assert (E : split_of_combine (lit "Smith") (lit "John") (lit "A")
              = Ok (lit "Smith", lit "John A", [])) by reflexivity.
  rewrite E in H.
  assert (Hn : Ok (lit "Smith", lit "John A", @nil ascii)
               = Ok (lit "Smith", lit "John", lit "A"))
    by (apply H; discriminate).
  discriminate Hn.
Qed.

(** ** Combining never raises *)

Lemma lstrip_blank_app (x y : str) :
  blank x = true -> lstrip (x ++ y) = lstrip y.
Proof.
  induction x as [|c x IH]; simpl; [reflexivity|].
  intros H. apply andb_true_iff in H. destruct H as [Hc Hx].
  rewrite Hc. auto.
Qed.

Lemma blank_clean_name_part (x : option str) :
  blank_or_missing x = true -> blank (clean_name_part x) = true.
Proof. destruct x; simpl; auto. Qed.

(** The combined string always holds the comma of the format, so the test
    for an empty name of lines 114-115 never succeeds. *)
Lemma combine_row_never_raises (parts : row) :
  exists full_name, combine_row parts = Ok full_name.
Proof.
  destruct parts as [[last first] middle]. unfold combine_row.
  destruct (strip _) as [|c s] eqn:E; [|eauto].
  apply strip_nil_iff in E. rewrite blank_app in E.
  apply andb_true_iff in E. destruct E as [_ E]. discriminate.
Qed.

(** C3: on a row whose three parts are blank or missing the code does
    not raise: it returns the string made of the comma alone. *)
Theorem combine_row_all_blank_returns_comma (last first middle : option str) :
  blank_or_missing last = true ->
  blank_or_missing first = true ->
  blank_or_missing middle = true ->
  combine_row (last, first, middle) = Ok [comma].
Proof.
  intros Hl Hf Hm. apply blank_clean_name_part in Hl, Hf, Hm.
  unfold combine_row.
  assert (E : strip (clean_name_part last ++ lit ", " ++ clean_name_part first
                     ++ lit " " ++ clean_name_part middle) = [comma]).
  { unfold strip. rewrite lstrip_blank_app by assumption.
    change (lit ", ") with [comma; " "%char]. simpl lstrip. simpl rstrip.
    assert (Hr : rstrip (" "%char :: clean_name_part first ++ lit " "
                         ++ clean_name_part middle) = []).
    { apply rstrip_nil_iff.
      change (" "%char :: clean_name_part first ++ lit " "
              ++ clean_name_part middle)
        with ([" "%char] ++ clean_name_part first ++ lit " "
              ++ clean_name_part middle).
      rewrite !blank_app, Hf, Hm. reflexivity. }
    simpl in Hr. simpl. now rewrite Hr. }
  now rewrite E.
Qed.

Lemma combine_row_all_blank_returns_comma_witness :
  combine_row (None, Some (lit "  "), None) = Ok [comma].
Proof.
  apply (combine_row_all_blank_returns_comma None (Some (lit "  ")) None);
    reflexivity.
Defined.

(** ** Sorting by descending key *)

Section SortFacts.
Context {A : Type} (key : A -> Q).

Lemma Qltb_false (a b : Q) : Qltb a b = false <-> (b <= a)%Q.
Proof.
  unfold Qltb. rewrite negb_false_iff. apply Qle_bool_iff.
Qed.

Lemma Qltb_true (a b : Q) : Qltb a b = true <-> (a < b)%Q.
Proof.
  unfold Qltb. rewrite negb_true_iff. split.
  - intros H. apply Qnot_le_lt. intros Hle.
    apply Qle_bool_iff in Hle. congruence.
  - intros H. destruct (Qle_bool b a) eqn:E; [|reflexivity].
    apply Qle_bool_iff in E. exfalso. now apply (Qlt_not_le _ _ H).
Qed.

Lemma insert_desc_perm (x : A) (l : list A) :
  Permutation (x :: l) (insert_desc key x l).
Proof.
  induction l as [|y l IH]; simpl; [reflexivity|].
  destruct (Qltb (key x) (key y)); [|reflexivity].
  rewrite perm_swap. now constructor.
Qed.

Lemma sort_desc_perm (l : list A) : Permutation l (sort_desc key l).
Proof.
  induction l as [|x l IH]; simpl; [reflexivity|].
  rewrite <- insert_desc_perm. now constructor.
Qed.

Lemma insert_desc_sorted (x : A) (l : list A) :
  sorted_desc key l -> sorted_desc key (insert_desc key x l).
Proof.
  unfold sorted_desc. induction l as [|y l IH]; intros Hs; simpl.
  - repeat constructor.
  - apply StronglySorted_inv in Hs. destruct Hs as [Hs Hy].
    destruct (Qltb (key x) (key y)) eqn:E.
    + constructor; [now apply IH|].
      apply (Permutation_Forall (insert_desc_perm x l)).
      constructor; [|assumption].
      apply Qlt_le_weak. now apply Qltb_true.
    + apply Qltb_false in E. constructor.
      * now constructor.
      * constructor; [assumption|].
        eapply Forall_impl; [|exact Hy]. simpl. intros z Hz.
        now apply Qle_trans with (key y).
Qed.

Lemma sort_desc_sorted (l : list A) : sorted_desc key (sort_desc key l).
Proof.
  induction l as [|x l IH]; simpl; [constructor|].
  now apply insert_desc_sorted.
Qed.

(** The sort is stable: the elements with a given key keep their order. *)
Lemma insert_desc_ties (k : Q) (x : A) (l : list A) :
  filter (fun y => Qeq_bool (key y) k) (insert_desc key x l)
  = filter (fun y => Qeq_bool (key y) k) (x :: l).
Proof.
  induction l as [|y l IH]; [reflexivity|]. simpl insert_desc.
  destruct (Qltb (key x) (key y)) eqn:E; [|reflexivity].
  simpl. simpl in IH. rewrite IH.
  destruct (Qeq_bool (key x) k) eqn:Ex; destruct (Qeq_bool (key y) k) eqn:Ey;
    try reflexivity.
  exfalso. apply Qeq_bool_iff in Ex, Ey. apply Qltb_true in E.
  rewrite Ex, Ey in E. exact (Qlt_irrefl k E).
Qed.

Lemma sort_desc_ties (k : Q) (l : list A) :
  filter (fun y => Qeq_bool (key y) k) (sort_desc key l)
  = filter (fun y => Qeq_bool (key y) k) l.
Proof.
  induction l as [|x l IH]; [reflexivity|]. simpl sort_desc.
  rewrite insert_desc_ties. simpl. now rewrite IH.
Qed.

Lemma sort_desc_nil (l : list A) : sort_desc key l = [] <-> l = [].
Proof.
  split; [|now intros ->]. intros E.
  apply Permutation_nil. rewrite <- E. symmetry. apply sort_desc_perm.
Qed.

(** The head of a list sorted by descending key has the greatest key. *)
Lemma sorted_desc_head (x : A) (l : list A) :
  sorted_desc key (x :: l) -> forall y, In y (x :: l) -> (key y <= key x)%Q.
Proof.
  intros Hs y [<-|Hy]; [apply Qle_refl|].
  apply StronglySorted_inv in Hs. destruct Hs as [_ Hx].
  rewrite Forall_forall in Hx. now apply Hx.
Qed.

(** Two sorted lists with the same elements start with equal keys. *)
Lemma sorted_desc_head_unique (x1 x2 : A) (l1 l2 : list A) :
  sorted_desc key (x1 :: l1) -> sorted_desc key (x2 :: l2) ->
  Permutation (x1 :: l1) (x2 :: l2) -> (key x1 == key x2)%Q.
Proof.
  intros H1 H2 Hp. apply Qle_antisym.
  - apply (sorted_desc_head _ _ H2).
    apply (Permutation_in _ Hp). now left.
  - apply (sorted_desc_head _ _ H1).
    apply (Permutation_in _ (Permutation_sym Hp)). now left.
Qed.

(** In a list sorted by descending key, of two neighbours the first has
    the greater or equal key. *)
Lemma sorted_desc_adjacent (pre post : list A) (a b : A) :
  sorted_desc key (pre ++ a :: b :: post) -> (key b <= key a)%Q.
Proof.
  unfold sorted_desc. induction pre as [|p pre IH]; simpl; intros Hs.
  - apply StronglySorted_inv in Hs. destruct Hs as [_ Ha].
    now inversion Ha.
  - apply StronglySorted_inv in Hs. now apply IH.
Qed.

Lemma filter_perm (f : A -> bool) (l l' : list A) :
  Permutation l l' -> Permutation (filter f l) (filter f l').
Proof.
  induction 1 as [|x l l' _ IH|x y l|l l' l'' _ IH1 _ IH2]; simpl.
  - constructor.
  - destruct (f x); [now constructor | assumption].
  - destruct (f x), (f y); try reflexivity. apply perm_swap.
  - now transitivity (filter f l').
Qed.
End SortFacts.

(** ** The matcher *)

Section MatcherFacts.
Variable order : set_order.
Variable ratio : str -> str -> Q.

Lemma notna_In (l : list (option str)) (s : str) :
  In s (notna l) <-> In (Some s) l.
Proof.
  induction l as [|[x|] l IH]; simpl; [tauto| |].
  - rewrite IH. split; intros [H|H]; auto; left; congruence.
  - rewrite IH. split; [auto|]. intros [H|H]; [discriminate | assumption].
Qed.

Lemma mem_In (x : str) (l : list str) : mem x l = true <-> In x l.
Proof.
  unfold mem. rewrite existsb_exists. split.
  - intros [y [Hy E]]. apply str_eqb_eq in E. now subst.
  - intros H. exists x. split; [assumption | apply str_eqb_refl].
Qed.

Lemma reference_set_In (names2 : list (option str)) (x : str) :
  In x (reference_set order names2) <-> In x (map clean (notna names2)).
Proof. apply iter_In. Qed.

(** An exact match: one candidate, no comparison. *)
Lemma check_name_exact (refs : list str) (t : Q) (q : str) :
  In q refs ->
  check_name ratio refs t q = (Some (Candidate q exact 1 [q]), []).
Proof.
  intros H. unfold check_name. now rewrite (proj2 (mem_In q refs) H).
Qed.

Lemma check_name_name (refs : list str) (t : Q) (q : str) (c : candidate) :
  fst (check_name ratio refs t q) = Some c -> name c = q.
Proof.
  unfold check_name. destruct (mem q refs).
  - simpl. intros E. injection E as <-. reflexivity.
  - destruct (sort_desc snd (close_matches ratio q refs t)); simpl;
      [discriminate|].
    intros E. injection E as <-. reflexivity.
Qed.

Lemma check_name_compared (refs : list str) (t : Q) (q a b : str) :
  In (a, b) (snd (check_name ratio refs t q)) -> a = q /\ mem q refs = false.
Proof.
  unfold check_name. destruct (mem q refs); [simpl; tauto|].
  assert (H : In (a, b) (map (fun existing => (q, existing)) refs)
              -> a = q /\ false = false).
  { rewrite in_map_iff. intros [e [E _]]. split; congruence. }
  destruct (sort_desc snd (close_matches ratio q refs t)); exact H.
Qed.

Lemma results_In (names1 names2 : list (option str)) (t : Q) (c : candidate) :
  In c (results order ratio names1 names2 t) <->
  exists q, In q (map clean (notna names1))
            /\ fst (check_name ratio (reference_set order names2) t q) = Some c.
Proof.
  unfold results. rewrite in_flat_map. split; intros [q [Hq H]]; exists q;
    (split; [assumption|]).
  - destruct (fst (check_name ratio (reference_set order names2) t q));
      simpl in H; [|tauto]. destruct H as [->|[]]. reflexivity.
  - rewrite H. now left.
Qed.

(** The call returns a report exactly when some query found a match;
    it then holds the candidates found, none lost and none added. *)
Lemma find_potential_duplicates_Ok (names1 names2 : list (option str)) (t : Q) :
  results order ratio names1 names2 t <> [] ->
  find_potential_duplicates order ratio names1 names2 t
  = Ok (sort_desc similarity (results order ratio names1 names2 t)).
Proof.
  unfold find_potential_duplicates, sort_values_by_similarity.
  destruct (results order ratio names1 names2 t); [congruence | reflexivity].
Qed.

Lemma find_potential_duplicates_inv
  (names1 names2 : list (option str)) (t : Q) (report : list candidate) :
  find_potential_duplicates order ratio names1 names2 t = Ok report ->
  report = sort_desc similarity (results order ratio names1 names2 t).
Proof.
  unfold find_potential_duplicates, sort_values_by_similarity.
  destruct (results order ratio names1 names2 t); [discriminate|].
  intros E. now injection E.
Qed.

Lemma close_matches_In (q : str) (refs : list str) (t : Q) (e : str) (s : Q) :
  In (e, s) (close_matches ratio q refs t)
  <-> In e refs /\ s = ratio q e /\ (t <= s)%Q.
Proof.
  unfold close_matches. rewrite filter_In, in_map_iff. simpl.
  rewrite Qle_bool_iff. split.
  - intros [[x [E Hx]] Ht]. injection E as -> ->. auto.
  - intros (He & -> & Ht). split; [|assumption]. now exists e.
Qed.

End MatcherFacts.

(** ** The properties of the matcher *)

(** C8: a report returned by [find_potential_duplicates] is sorted by
    descending similarity; of two adjacent entries the first has the
    greater or equal similarity. *)
Theorem report_sorted_by_similarity
  (order : set_order) (ratio : str -> str -> Q)
  (names1 names2 : list (option str)) (threshold : Q)
  (report : list candidate) :
  find_potential_duplicates order ratio names1 names2 threshold = Ok report ->
  sorted_desc similarity report
  /\ forall pre a b post,
       report = pre ++ a :: b :: post -> (similarity b <= similarity a)%Q.
Proof.
  intros H. apply find_potential_duplicates_inv in H.
  assert (Hs : sorted_desc similarity report)
    by (rewrite H; apply sort_desc_sorted).
  split; [assumption|].
  intros pre a b post E. rewrite E in Hs.
  exact (sorted_desc_adjacent similarity pre post a b Hs).
Qed.

Lemma report_sorted_by_similarity_witness :
  exists report,
    find_potential_duplicates SetOrders.forward Difflib.ratio
      [Some (lit "Smithe, Jon"); None; Some (lit "Smith, John A.")]
      [Some (lit "Smith, John A.")] (6 # 10)
    = Ok report
    /\ length report = 2
    /\ sorted_desc similarity report.
Proof.
  eexists. split; [vm_compute; reflexivity|]. split; [reflexivity|].
  eapply (report_sorted_by_similarity SetOrders.forward Difflib.ratio
            [Some (lit "Smithe, Jon"); None; Some (lit "Smith, John A.")]
            [Some (lit "Smith, John A.")] (6 # 10)).
  vm_compute. reflexivity.
Defined.

(** C7: raising the threshold never adds a fuzzy match: what qualifies at
    the higher threshold qualifies at the lower one, and is not more
    numerous. *)
Theorem close_matches_threshold_monotone
  (ratio : str -> str -> Q) (query : str) (names2 : list str) (t1 t2 : Q) :
  (t1 <= t2)%Q ->
  incl (close_matches ratio query names2 t2) (close_matches ratio query names2 t1)
  /\ incl (map fst (close_matches ratio query names2 t2))
          (map fst (close_matches ratio query names2 t1))
  /\ length (close_matches ratio query names2 t2)
     <= length (close_matches ratio query names2 t1).
Proof.
  intros Ht.
  assert (Hincl : incl (close_matches ratio query names2 t2)
                       (close_matches ratio query names2 t1)).
  { intros [e s] H. apply close_matches_In in H. apply close_matches_In.
    destruct H as (He & Hs & Hle). repeat split; try assumption.
    now apply Qle_trans with t2. }
  split; [assumption|]. split; [now apply incl_map|].
  unfold close_matches.
  induction (map (fun existing => (existing, ratio query existing)) names2)
    as [|p l IH]; simpl; [lia|].
  destruct (Qle_bool t2 (snd p)) eqn:E2.
  - assert (E1 : Qle_bool t1 (snd p) = true).
    { apply Qle_bool_iff. apply Qle_trans with t2; [assumption|].
      now apply Qle_bool_iff. }
    rewrite E1. simpl. lia.
  - destruct (Qle_bool t1 (snd p)); simpl; lia.
Qed.

Lemma close_matches_threshold_monotone_witness :
  incl (map fst (close_matches Difflib.ratio (lit "smithe, jon")
                   [lit "smith, john a."; lit "smyth, joan"] (3 # 4)))
       (map fst (close_matches Difflib.ratio (lit "smithe, jon")
                   [lit "smith, john a."; lit "smyth, joan"] (1 # 2))).
Proof.
  apply (close_matches_threshold_monotone Difflib.ratio (lit "smithe, jon")
           [lit "smith, john a."; lit "smyth, joan"] (1 # 2) (3 # 4)).
  discriminate.
Defined.

(** C6: a query whose cleaned form is in the reference set gets one exact
    candidate with similarity 1 and itself as only match, whatever the
    threshold; the report holds no other candidate for it, and no
    comparison by SequenceMatcher is made for it. *)
Theorem exact_match_precedence
  (order : set_order) (ratio : str -> str -> Q)
  (names1 names2 : list (option str)) (threshold : Q) (query : str) :
  In (Some query) names1 ->
  In (clean query) (map clean (notna names2)) ->
  exists report,
    find_potential_duplicates order ratio names1 names2 threshold = Ok report
    /\ In (Candidate (clean query) exact 1 [clean query]) report
    /\ (forall c, In c report -> name c = clean query ->
                  c = Candidate (clean query) exact 1 [clean query])
    /\ (forall existing,
          ~ In (clean query, existing)
               (comparisons order ratio names1 names2 threshold)).
Proof.
  intros Hq Href.
  assert (Hin : In (clean query) (reference_set order names2))
    by now apply reference_set_In.
  assert (Hq' : In (clean query) (map clean (notna names1)))
    by now apply in_map, notna_In.
  pose proof (check_name_exact ratio _ threshold _ Hin) as Hex.
  assert (Hres : In (Candidate (clean query) exact 1 [clean query])
                    (results order ratio names1 names2 threshold)).
  { apply results_In. exists (clean query). split; [assumption|].
    now rewrite Hex. }
  exists (sort_desc similarity (results order ratio names1 names2 threshold)).
  split; [|split; [|split]].
  - apply find_potential_duplicates_Ok. intros E. now rewrite E in Hres.
  - apply (Permutation_in _ (sort_desc_perm similarity _)). exact Hres.
  - intros c Hc Hn.
    apply (Permutation_in _ (Permutation_sym (sort_desc_perm similarity _)))
      in Hc.
    apply results_In in Hc. destruct Hc as [q [_ Hc]].
    pose proof (check_name_name ratio _ _ _ _ Hc) as E.
    rewrite Hn in E. subst q. rewrite Hex in Hc. simpl in Hc. congruence.
  - intros existing H. unfold comparisons in H. apply in_flat_map in H.
    destruct H as [q [_ H]]. apply check_name_compared in H.
    destruct H as [<- H]. apply mem_In in Hin. congruence.
Qed.

Lemma exact_match_precedence_witness :
  exists report,
    find_potential_duplicates SetOrders.forward Difflib.ratio
      [Some (lit "Smith, John A.")] [Some (lit "smith, john a.")] (3 # 4)
    = Ok report
    /\ In (Candidate (lit "smith, john a.") exact 1 [lit "smith, john a."])
          report.
Proof.
  destruct (exact_match_precedence SetOrders.forward Difflib.ratio
              [Some (lit "Smith, John A.")] [Some (lit "smith, john a.")]
              (3 # 4) (lit "Smith, John A."))
    as [report [H1 [H2 _]]].
  - now left.
  - now left.
  - exists report. split; [exact H1 | exact H2].
Defined.

Lemma find_potential_duplicates_only_KeyError
  (order : set_order) (ratio : str -> str -> Q)
  (names1 names2 : list (option str)) (threshold : Q) (e : exn) :
  find_potential_duplicates order ratio names1 names2 threshold = Err e ->
  e = KeyError (lit "similarity").
Proof.
  unfold find_potential_duplicates, sort_values_by_similarity.
  destruct (results order ratio names1 names2 threshold); [|discriminate].
  intros E. now injection E.
Qed.

(** C5 (amended): the script rejects a threshold below 0 or above 1
    before it combines any name or matches anything, whatever the tables
    hold; [find_potential_duplicates] itself never raises a ValueError for
    such a threshold. *)
Theorem main_rejects_threshold
  (order : set_order) (ratio : str -> str -> Q)
  (threshold : Q) (existing_df new_df : list row) :
  (threshold < 0 \/ 1 < threshold)%Q ->
  main order ratio threshold existing_df new_df
  = Err (ValueError (lit "Similarity threshold must be between 0 and 1"))
  /\ forall names1 names2 msg,
       find_potential_duplicates order ratio names1 names2 threshold
       <> Err (ValueError msg).
Proof.
  intros H. split.
  - unfold main.
    assert (E : Qltb threshold 0 || Qltb 1 threshold = true).
    { apply orb_true_iff. destruct H as [H|H]; [left | right];
        now apply Qltb_true. }
    now rewrite E.
  - intros names1 names2 msg E.
    apply find_potential_duplicates_only_KeyError in E. discriminate.
Qed.

Lemma main_rejects_threshold_witness :
  main SetOrders.forward Difflib.ratio (3 # 2)
       [(Some (lit "Doe"), Some (lit "Jane"), None)]
       [(Some (lit "Doe"), Some (lit "Jane"), None)]
  = Err (ValueError (lit "Similarity threshold must be between 0 and 1")).
Proof.
  apply (main_rejects_threshold SetOrders.forward Difflib.ratio (3 # 2)).
  right. reflexivity.
Defined.

(** C5 as stated fails: [find_potential_duplicates] itself has no check
    and, given the threshold 2, returns a report. *)
Lemma find_potential_duplicates_accepts_threshold_2 :
  (1 < 2)%Q
  /\ find_potential_duplicates SetOrders.forward Difflib.ratio
       [Some (lit "Doe, Jane")] [Some (lit "doe, jane")] 2
     = Ok [Candidate (lit "doe, jane") exact 1 [lit "doe, jane"]].
Proof. split; reflexivity. Qed.

(** C2: when no query has an exact match or a reference string reaching
    the threshold, the call does not return an empty report: the sort of
    line 65 raises KeyError. *)
Theorem find_potential_duplicates_no_match_raises
  (order : set_order) (ratio : str -> str -> Q)
  (names1 names2 : list (option str)) (threshold : Q) :
  (forall query existing,
      In query (map clean (notna names1)) ->
      In existing (map clean (notna names2)) ->
      query <> existing /\ (ratio query existing < threshold)%Q) ->
  find_potential_duplicates order ratio names1 names2 threshold
  = Err (KeyError (lit "similarity")).
Proof.
  intros H.
  assert (E : results order ratio names1 names2 threshold = []).
  { unfold results. induction (map clean (notna names1)) as [|q qs IH];
      [reflexivity|].
    simpl. rewrite IH by (intros; apply H; simpl; auto).
    rewrite app_nil_r. unfold check_name.
    destruct (mem q (reference_set order names2)) eqn:Em.
    - apply mem_In, reference_set_In in Em.
      destruct (H q q (or_introl eq_refl) Em) as [Hne _]. congruence.
    - assert (Ec : close_matches ratio q (reference_set order names2) threshold
                   = []).
      { destruct (close_matches ratio q (reference_set order names2) threshold)
          as [|[e s] l] eqn:Ecm; [reflexivity|].
        assert (Hin : In (e, s) (close_matches ratio q
                                   (reference_set order names2) threshold))
          by (rewrite Ecm; now left).
        apply close_matches_In in Hin. destruct Hin as (He & -> & Hle).
        apply reference_set_In in He.
        destruct (H q e (or_introl eq_refl) He) as [_ Hlt].
        exfalso. now apply (Qlt_not_le _ _ Hlt). }
      rewrite Ec. reflexivity. }
  unfold find_potential_duplicates. now rewrite E.
Qed.

Lemma find_potential_duplicates_no_match_raises_witness :
  find_potential_duplicates SetOrders.forward Difflib.ratio
    [Some (lit "Zed, Nobody")] [Some (lit "Alpha, Somebody")]
    (Difflib.nearest_double 9 10)
  = Err (KeyError (lit "similarity")).
Proof.
  apply (find_potential_duplicates_no_match_raises SetOrders.forward
           Difflib.ratio [Some (lit "Zed, Nobody")]
           [Some (lit "Alpha, Somebody")] (Difflib.nearest_double 9 10)).
  intros query existing [<-|[]] [<-|[]].
  split; [discriminate | vm_compute; reflexivity].
Defined.

(** The same happens on empty inputs. *)
Lemma find_potential_duplicates_empty_raises
  (order : set_order) (ratio : str -> str -> Q) (threshold : Q) :
  find_potential_duplicates order ratio [] [] threshold
  = Err (KeyError (lit "similarity")).
Proof. reflexivity. Qed.

(** ** Two runs with different iteration orders of the reference set *)

Section TwoRuns.
Variable ratio : str -> str -> Q.

Lemma same_candidate_refl (c : candidate) : same_candidate c c.
Proof. repeat split; reflexivity. Qed.

Lemma mem_perm (q : str) (refs1 refs2 : list str) :
  Permutation refs1 refs2 -> mem q refs1 = mem q refs2.
Proof.
  intros Hp. destruct (mem q refs2) eqn:E2.
  - apply mem_In. apply mem_In in E2.
    now apply (Permutation_in _ (Permutation_sym Hp)).
  - destruct (mem q refs1) eqn:E1; [|reflexivity].
    apply mem_In in E1. apply (Permutation_in _ Hp) in E1.
    apply mem_In in E1. congruence.
Qed.

Lemma close_matches_perm (q : str) (refs1 refs2 : list str) (t : Q) :
  Permutation refs1 refs2 ->
  Permutation (close_matches ratio q refs1 t) (close_matches ratio q refs2 t).
Proof.
  intros Hp. unfold close_matches. apply filter_perm.
  now apply Permutation_map.
Qed.

Lemma check_name_perm (q : str) (refs1 refs2 : list str) (t : Q) :
  Permutation refs1 refs2 ->
  same_answer (fst (check_name ratio refs1 t q))
              (fst (check_name ratio refs2 t q)).
Proof.
  intros Hp. unfold check_name. rewrite (mem_perm q _ _ Hp).
  destruct (mem q refs2); [apply same_candidate_refl|].
  pose proof (close_matches_perm q _ _ t Hp) as Hcm.
  pose proof (sort_desc_sorted snd (close_matches ratio q refs1 t)) as Hs1.
  pose proof (sort_desc_sorted snd (close_matches ratio q refs2 t)) as Hs2.
  assert (Hps : Permutation (sort_desc snd (close_matches ratio q refs1 t))
                            (sort_desc snd (close_matches ratio q refs2 t))).
  { rewrite <- !sort_desc_perm. exact Hcm. }
  destruct (sort_desc snd (close_matches ratio q refs1 t)) as [|b1 s1];
    destruct (sort_desc snd (close_matches ratio q refs2 t)) as [|b2 s2];
    simpl.
  - exact I.
  - now apply Permutation_nil_cons in Hps.
  - apply Permutation_sym in Hps. now apply Permutation_nil_cons in Hps.
  - repeat split.
    + exact (sorted_desc_head_unique snd b1 b2 s1 s2 Hs1 Hs2 Hps).
    + exact (Permutation_map fst Hps).
Qed.

Lemma results_perm (order1 order2 : set_order)
  (names1 names2 : list (option str)) (t : Q) :
  Forall2 same_candidate (results order1 ratio names1 names2 t)
                         (results order2 ratio names1 names2 t).
Proof.
  assert (Hp : Permutation (reference_set order1 names2)
                           (reference_set order2 names2)).
  { apply NoDup_Permutation; try apply iter_NoDup.
    intros x. unfold reference_set. now rewrite !iter_In. }
  unfold results. induction (map clean (notna names1)) as [|q qs IH];
    simpl; [constructor|].
  apply Forall2_app; [|exact IH].
  pose proof (check_name_perm q _ _ t Hp) as H.
  destruct (fst (check_name ratio (reference_set order1 names2) t q));
    destruct (fst (check_name ratio (reference_set order2 names2) t q));
    simpl in *; try tauto; constructor; [exact H | constructor].
Qed.

Lemma same_candidate_Qltb (x1 x2 y1 y2 : candidate) :
  same_candidate x1 x2 -> same_candidate y1 y2 ->
  Qltb (similarity x1) (similarity y1) = Qltb (similarity x2) (similarity y2).
Proof.
  intros (_ & _ & Hx & _) (_ & _ & Hy & _). unfold Qltb.
  now rewrite (Qleb_comp _ _ Hy _ _ Hx).
Qed.

Lemma insert_desc_same (x1 x2 : candidate) (l1 l2 : list candidate) :
  same_candidate x1 x2 -> Forall2 same_candidate l1 l2 ->
  Forall2 same_candidate (insert_desc similarity x1 l1)
                         (insert_desc similarity x2 l2).
Proof.
  intros Hx Hl. induction Hl as [|y1 y2 l1 l2 Hy Hl IH]; simpl.
  - constructor; [assumption | constructor].
  - rewrite (same_candidate_Qltb _ _ _ _ Hx Hy).
    destruct (Qltb (similarity x2) (similarity y2)).
    + constructor; assumption.
    + constructor; [assumption|]. constructor; assumption.
Qed.

Lemma sort_desc_same (l1 l2 : list candidate) :
  Forall2 same_candidate l1 l2 ->
  Forall2 same_candidate (sort_desc similarity l1) (sort_desc similarity l2).
Proof.
  induction 1; simpl; [constructor|]. now apply insert_desc_same.
Qed.

(** The matches of a candidate are in descending order of ratio. *)
Lemma sorted_pairs_fst (q : str) (l : list (str * Q)) :
  (forall p, In p l -> snd p = ratio q (fst p)) ->
  sorted_desc snd l -> sorted_desc (ratio q) (map fst l).
Proof.
  unfold sorted_desc. induction l as [|p l IH]; simpl; intros Hr Hs;
    [constructor|].
  apply StronglySorted_inv in Hs. destruct Hs as [Hs Hp].
  constructor; [apply IH; auto|].
  apply Forall_map. rewrite Forall_forall in *. intros p' Hp'.
  rewrite <- (Hr p (or_introl eq_refl)), <- (Hr p' (or_intror Hp')).
  now apply Hp.
Qed.

Lemma check_name_matches_sorted (refs : list str) (t : Q) (q : str)
  (c : candidate) :
  fst (check_name ratio refs t q) = Some c ->
  sorted_desc (ratio (name c)) (existing_matches c).
Proof.
  unfold check_name. destruct (mem q refs); simpl.
  - intros E. injection E as <-. simpl. repeat constructor.
  - pose proof (sort_desc_sorted snd (close_matches ratio q refs t)) as Hs.
    pose proof (sort_desc_perm snd (close_matches ratio q refs t)) as Hp.
    destruct (sort_desc snd (close_matches ratio q refs t)) as [|b s];
      simpl; [discriminate|].
    intros E. injection E as <-. simpl.
    apply (sorted_pairs_fst q (b :: s)); [|exact Hs].
    intros [e r] Hin. apply (Permutation_in _ (Permutation_sym Hp)) in Hin.
    apply close_matches_In in Hin. simpl. tauto.
Qed.
Lemma filter_map_fst (q : str) (f : Q -> bool) (l : list (str * Q)) :
  (forall p, In p l -> snd p = ratio q (fst p)) ->
  filter (fun e => f (ratio q e)) (map fst l)
  = map fst (filter (fun p => f (snd p)) l).
Proof.
  induction l as [|p l IH]; intros H; [reflexivity|]. simpl.
  rewrite <- (H p (or_introl eq_refl)).
  rewrite IH by (intros; apply H; now right).
  now destruct (f (snd p)).
Qed.

Lemma close_matches_ratio (q : str) (refs : list str) (t : Q) (p : str * Q) :
  In p (close_matches ratio q refs t) -> snd p = ratio q (fst p).
Proof.
  destruct p as [e s]. intros H. apply close_matches_In in H. simpl. tauto.
Qed.

Lemma close_matches_names (q : str) (refs : list str) (t : Q) :
  map fst (close_matches ratio q refs t)
  = filter (fun e => Qle_bool t (ratio q e)) refs.
Proof.
  unfold close_matches. induction refs as [|e refs IH]; [reflexivity|].
  simpl. destruct (Qle_bool t (ratio q e)); simpl; now rewrite IH.
Qed.

(** Among the matches of a fuzzy candidate, the names with one and the
    same ratio are in the order in which the reference set lists them. *)
Lemma check_name_ties (refs : list str) (t : Q) (q : str) (c : candidate)
  (k : Q) :
  fst (check_name ratio refs t q) = Some c ->
  match_type c = fuzzy ->
  filter (fun e => Qeq_bool (ratio q e) k) (existing_matches c)
  = filter (fun e => Qeq_bool (ratio q e) k)
           (filter (fun e => Qle_bool t (ratio q e)) refs).
Proof.
  unfold check_name. destruct (mem q refs); simpl.
  - intros E. injection E as <-. discriminate.
  - pose proof (sort_desc_perm snd (close_matches ratio q refs t)) as Hp.
    pose proof (sort_desc_ties snd k (close_matches ratio q refs t)) as Ht.
    destruct (sort_desc snd (close_matches ratio q refs t)) as [|b s] eqn:Es;
      cbn [fst]; [discriminate|].
    intros E _. injection E as <-. cbv [existing_matches].
    change (fst b :: map fst s) with (map fst (b :: s)).
    rewrite <- close_matches_names.
    rewrite (filter_map_fst q (fun r => Qeq_bool r k) (b :: s)).
    + rewrite Ht. symmetry.
      apply (filter_map_fst q (fun r => Qeq_bool r k)).
      apply close_matches_ratio.
    + intros p Hin. apply (close_matches_ratio q refs t).
      now apply (Permutation_in _ (Permutation_sym Hp)).
Qed.
End TwoRuns.

(** C4 (amended): two runs on the same inputs, whatever the iteration
    orders of the reference set, raise the same exception or return
    reports with the same candidates at the same places: same name, same
    match type, same similarity, and the same reference names as matches.
    In each report the matches of a candidate are in descending order of
    ratio, and the matches of a fuzzy candidate that have one and the same
    ratio are in the order in which the reference set of that run lists
    them. *)
Theorem find_potential_duplicates_up_to_set_order
  (order1 order2 : set_order) (ratio : str -> str -> Q)
  (names1 names2 : list (option str)) (threshold : Q) :
  same_outcome (find_potential_duplicates order1 ratio names1 names2 threshold)
               (find_potential_duplicates order2 ratio names1 names2 threshold)
  /\ forall report c,
       find_potential_duplicates order1 ratio names1 names2 threshold
       = Ok report ->
       In c report ->
       sorted_desc (ratio (name c)) (existing_matches c)
       /\ (match_type c = fuzzy ->
           forall k,
             filter (fun e => Qeq_bool (ratio (name c) e) k)
                    (existing_matches c)
             = filter (fun e => Qeq_bool (ratio (name c) e) k)
                 (filter (fun e => Qle_bool threshold (ratio (name c) e))
                         (reference_set order1 names2))).
Proof.
  split.
  - pose proof (results_perm ratio order1 order2 names1 names2 threshold) as H.
    unfold find_potential_duplicates, sort_values_by_similarity.
    destruct H as [|c1 c2 l1 l2 Hc Hl]; simpl; [reflexivity|].
    apply (sort_desc_same (c1 :: l1) (c2 :: l2)). now constructor.
  - intros report c H Hc. apply find_potential_duplicates_inv in H. subst.
    apply (Permutation_in _ (Permutation_sym (sort_desc_perm similarity _)))
      in Hc.
    apply results_In in Hc. destruct Hc as [q [_ Hc]].
    split.
    + exact (check_name_matches_sorted ratio _ _ _ _ Hc).
    + intros Hf k. rewrite (check_name_name ratio _ _ _ _ Hc).
      now apply check_name_ties.
Qed.

(** C4 as stated fails: two reference names tie on ratio, and their order
    in the matches list is the iteration order of the set, not the same
    in two runs and not the lexicographic one. *)
Lemma tie_order_follows_set_order :
  (Difflib.ratio (lit "doe, jan") (lit "doe, jane")
   == Difflib.ratio (lit "doe, jan") (lit "doe, jana"))%Q
  /\ (exists s,
        find_potential_duplicates SetOrders.forward Difflib.ratio
          [Some (lit "Doe, Jan")]
          [Some (lit "Doe, Jane"); Some (lit "Doe, Jana")] (3 # 4)
        = Ok [Candidate (lit "doe, jan") fuzzy s
                [lit "doe, jane"; lit "doe, jana"]]
        /\ find_potential_duplicates SetOrders.backward Difflib.ratio
             [Some (lit "Doe, Jan")]
             [Some (lit "Doe, Jane"); Some (lit "Doe, Jana")] (3 # 4)
           = Ok [Candidate (lit "doe, jan") fuzzy s
                   [lit "doe, jana"; lit "doe, jane"]])
  /\ find_potential_duplicates SetOrders.forward Difflib.ratio
       [Some (lit "Doe, Jan")]
       [Some (lit "Doe, Jane"); Some (lit "Doe, Jana")] (3 # 4)
     <> find_potential_duplicates SetOrders.backward Difflib.ratio
          [Some (lit "Doe, Jan")]
          [Some (lit "Doe, Jane"); Some (lit "Doe, Jana")] (3 # 4).
Proof.
  split; [vm_compute; reflexivity|]. split.
  - eexists. split; vm_compute; reflexivity.
  - vm_compute. discriminate.
Qed.

(** ** The scenarios of the specification *)

Example scenario_exact :
  find_potential_duplicates SetOrders.forward Difflib.ratio
    [Some (lit "Smith, John A.")] [Some (lit "smith, john a.")] (3 # 4)
  = Ok [Candidate (lit "smith, john a.") exact 1 [lit "smith, john a."]].
Proof. vm_compute. reflexivity. Qed.

Example scenario_fuzzy :
  find_potential_duplicates SetOrders.forward Difflib.ratio
    [Some (lit "Smithe, Jon")] [Some (lit "Smith, John A.")]
    (Difflib.nearest_double 6 10)
  = Ok [Candidate (lit "smithe, jon") fuzzy (Difflib.nearest_double 8 10)
          [lit "smith, john a."]].
Proof. vm_compute. reflexivity. Qed.

Example scenario_split :
  parse_fullname (Some (lit "Doe, Jane M."))
  = Ok (lit "Doe", lit "Jane", lit "M.").
Proof. reflexivity. Qed.

Example scenario_combine :
  combine_row (Some (lit "Doe"), Some (lit "Jane"), Some (lit "M."))
  = Ok (lit "Doe, Jane M.").
Proof. reflexivity. Qed.

Example scenario_no_comma :
  parse_fullname (Some (lit "Doe Jane"))
  = Err (ValueError (lit "Name must contain exactly one comma: Doe Jane")).
Proof. reflexivity. Qed.

Example parse_fullnames_column :
  parse_fullnames [Some (lit "Doe, Jane M."); Some (lit "Roe, Richard")]
  = Ok [(lit "Doe", lit "Jane", lit "M."); (lit "Roe", lit "Richard", [])].
Proof. reflexivity. Qed.

(** A row that splits but is not rebuilt exactly stops the batch. *)
Example parse_fullnames_unexpected_format :
  parse_fullnames [Some (lit "Doe, Jane M."); Some (lit "Roe,  Richard")]
  = Err (ValueError (lit "Full name data in unexpected format")).
Proof. reflexivity. Qed.

(** ** More on the matcher: what a report holds *)

Section ReportFacts.
Variable order : set_order.
Variable ratio : str -> str -> Q.

Lemma report_perm (names1 names2 : list (option str)) (t : Q)
  (report : list candidate) :
  find_potential_duplicates order ratio names1 names2 t = Ok report ->
  Permutation (results order ratio names1 names2 t) report.
Proof.
  intros H. apply find_potential_duplicates_inv in H. subst.
  apply sort_desc_perm.
Qed.

Lemma report_In (names1 names2 : list (option str)) (t : Q)
  (report : list candidate) (c : candidate) :
  find_potential_duplicates order ratio names1 names2 t = Ok report ->
  (In c report <->
   exists q, In q (map clean (notna names1))
             /\ fst (check_name ratio (reference_set order names2) t q)
                = Some c).
Proof.
  intros H. rewrite <- results_In. pose proof (report_perm _ _ _ _ H) as Hp.
  split; intros Hc.
  - now apply (Permutation_in _ (Permutation_sym Hp)).
  - now apply (Permutation_in _ Hp).
Qed.

Lemma notna_length (l : list (option str)) : length (notna l) <= length l.
Proof.
  induction l as [|[x|] l IH]; simpl; lia.
Qed.

Lemma results_length (names1 names2 : list (option str)) (t : Q) :
  length (results order ratio names1 names2 t) <= length (notna names1).
Proof.
  unfold results. rewrite <- (length_map clean (notna names1)).
  induction (map clean (notna names1)) as [|q qs IH]; simpl; [lia|].
  rewrite length_app.
  destruct (fst (check_name ratio (reference_set order names2) t q));
    simpl; lia.
Qed.

(** The answer to one query, spelled out. *)
Lemma check_name_fuzzy (refs : list str) (t : Q) (q : str) (c : candidate) :
  fst (check_name ratio refs t q) = Some c ->
  match_type c = fuzzy ->
  ~ In q refs
  /\ exists best rest,
       sort_desc snd (close_matches ratio q refs t) = best :: rest
       /\ c = Candidate q fuzzy (snd best) (map fst (best :: rest)).
Proof.
  unfold check_name. destruct (mem q refs) eqn:Em; cbn [fst].
  - intros E. injection E as <-. discriminate.
  - destruct (sort_desc snd (close_matches ratio q refs t)) as [|b s];
      cbn [fst]; [discriminate|].
    intros E _. injection E as <-. split.
    + intros Hin. apply mem_In in Hin. congruence.
    + now exists b, s.
Qed.

Lemma check_name_exact_inv (refs : list str) (t : Q) (q : str)
  (c : candidate) :
  fst (check_name ratio refs t q) = Some c ->
  match_type c = exact ->
  In q refs /\ c = Candidate q exact 1 [q].
Proof.
  unfold check_name. destruct (mem q refs) eqn:Em; cbn [fst].
  - intros E _. injection E as <-. split; [now apply mem_In | reflexivity].
  - destruct (sort_desc snd (close_matches ratio q refs t)); cbn [fst];
      [discriminate|].
    intros E. injection E as <-. discriminate.
Qed.

Lemma sorted_matches_In (q : str) (refs : list str) (t : Q) (e : str) :
  In e (map fst (sort_desc snd (close_matches ratio q refs t)))
  <-> In e refs /\ (t <= ratio q e)%Q.
Proof.
  rewrite in_map_iff. split.
  - intros [[e' s] [<- Hin]].
    apply (Permutation_in _ (Permutation_sym (sort_desc_perm snd _))) in Hin.
    apply close_matches_In in Hin. destruct Hin as (He & -> & Ht). now split.
  - intros [He Ht]. exists (e, ratio q e). split; [reflexivity|].
    apply (Permutation_in _ (sort_desc_perm snd _)).
    apply close_matches_In. auto.
Qed.

Lemma check_name_matches_In (refs : list str) (t : Q) (q : str)
  (c : candidate) (e : str) :
  fst (check_name ratio refs t q) = Some c ->
  In e (existing_matches c) -> In e refs.
Proof.
  intros Hc He. destruct (match_type c) eqn:Ek.
  - destruct (check_name_exact_inv _ _ _ _ Hc Ek) as [Hq ->].
    simpl in He. destruct He as [<-|[]]. exact Hq.
  - destruct (check_name_fuzzy _ _ _ _ Hc Ek) as [_ (b & s & Es & ->)].
    cbn [existing_matches] in He. rewrite <- Es in He.
    now apply sorted_matches_In in He.
Qed.

Lemma check_name_matches_NoDup (refs : list str) (t : Q) (q : str)
  (c : candidate) :
  NoDup refs ->
  fst (check_name ratio refs t q) = Some c ->
  NoDup (existing_matches c).
Proof.
  intros Hnd Hc. destruct (match_type c) eqn:Ek.
  - destruct (check_name_exact_inv _ _ _ _ Hc Ek) as [_ ->].
    simpl. constructor; [tauto | constructor].
  - destruct (check_name_fuzzy _ _ _ _ Hc Ek) as [_ (b & s & Es & ->)].
    cbn [existing_matches]. rewrite <- Es.
    apply (Permutation_NoDup
             (Permutation_map fst (sort_desc_perm snd
                                     (close_matches ratio q refs t)))).
    rewrite close_matches_names. now apply NoDup_filter.
Qed.

End ReportFacts.

(** X1: a returned report holds at most one candidate for each query that
    is not null: it is the list of candidates found, reordered, and is no
    longer than the list of queries. *)
Theorem report_at_most_one_per_query
  (order : set_order) (ratio : str -> str -> Q)
  (names1 names2 : list (option str)) (threshold : Q)
  (report : list candidate) :
  find_potential_duplicates order ratio names1 names2 threshold = Ok report ->
  Permutation (results order ratio names1 names2 threshold) report
  /\ length report <= length (notna names1)
  /\ length (notna names1) <= length names1.
Proof.
  intros H. pose proof (report_perm order ratio _ _ _ _ H) as Hp.
  split; [exact Hp|]. split; [|apply notna_length].
  rewrite <- (Permutation_length Hp). apply results_length.
Qed.

Lemma report_at_most_one_per_query_witness :
  exists report,
    find_potential_duplicates SetOrders.forward Difflib.ratio
      [Some (lit "Smithe, Jon"); None; Some (lit "Zed, Nobody")]
      [Some (lit "Smith, John A.")] (3 # 4)
    = Ok report
    /\ length report <= 2.
Proof.
  eexists. split; [vm_compute; reflexivity|].
  refine (proj1 (proj2 (report_at_most_one_per_query SetOrders.forward
            Difflib.ratio
            [Some (lit "Smithe, Jon"); None; Some (lit "Zed, Nobody")]
            [Some (lit "Smith, John A.")] (3 # 4) _ _))).
  vm_compute. reflexivity.
Defined.

(** X2: nothing in a report comes from a null entry or from outside the
    inputs: the name of every candidate is a cleaned query, and each of
    its matches is a cleaned reference name. *)
Theorem report_names_come_from_inputs
  (order : set_order) (ratio : str -> str -> Q)
  (names1 names2 : list (option str)) (threshold : Q)
  (report : list candidate) (c : candidate) :
  find_potential_duplicates order ratio names1 names2 threshold = Ok report ->
  In c report ->
  (exists query, In (Some query) names1 /\ name c = clean query)
  /\ forall e, In e (existing_matches c) ->
               exists reference, In (Some reference) names2
                                 /\ e = clean reference.
Proof.
  intros H Hc. apply (report_In order ratio _ _ _ _ c H) in Hc.
  destruct Hc as [q [Hq Hc]]. split.
  - apply in_map_iff in Hq. destruct Hq as [query [<- Hq]].
    exists query. split; [now apply notna_In|].
    exact (check_name_name ratio _ _ _ _ Hc).
  - intros e He. apply (check_name_matches_In ratio _ _ _ _ _ Hc) in He.
    apply reference_set_In, in_map_iff in He.
    destruct He as [reference [<- He]]. exists reference.
    split; [now apply notna_In | reflexivity].
Qed.

Lemma report_names_come_from_inputs_witness :
  exists query, In (Some query) [None; Some (lit "Smithe, Jon")]
                /\ lit "smithe, jon" = clean query.
Proof.
  refine (proj1 (report_names_come_from_inputs SetOrders.forward
            Difflib.ratio [None; Some (lit "Smithe, Jon")]
            [Some (lit "Smith, John A."); None] (3 # 4)
            [Candidate (lit "smithe, jon") fuzzy (Difflib.nearest_double 8 10)
               [lit "smith, john a."]]
            (Candidate (lit "smithe, jon") fuzzy (Difflib.nearest_double 8 10)
               [lit "smith, john a."]) _ _)).
  - vm_compute. reflexivity.
  - now left.
Defined.

Section CandidateFacts.
Variable ratio : str -> str -> Q.

Lemma check_name_Some_iff (refs : list str) (t : Q) (q : str) :
  (exists c, fst (check_name ratio refs t q) = Some c)
  <-> In q refs \/ exists e, In e refs /\ (t <= ratio q e)%Q.
Proof.
  split.
  - intros [c Hc]. destruct (match_type c) eqn:Ek.
    + left. exact (proj1 (check_name_exact_inv ratio _ _ _ _ Hc Ek)).
    + right.
      destruct (check_name_fuzzy ratio _ _ _ _ Hc Ek) as [_ (b & s & Es & _)].
      exists (fst b). apply (sorted_matches_In ratio q refs t).
      rewrite Es. now left.
  - intros [Hq|[e He]].
    + eexists. now rewrite (check_name_exact ratio refs t q Hq).
    + unfold check_name. destruct (mem q refs); [now eexists|].
      apply (sorted_matches_In ratio q refs t) in He.
      destruct (sort_desc snd (close_matches ratio q refs t)); [destruct He|].
      now eexists.
Qed.

(** The best pair of a sorted list of close matches. *)
Lemma sorted_best (refs : list str) (t : Q) (q : str) (b : str * Q)
  (s : list (str * Q)) :
  sort_desc snd (close_matches ratio q refs t) = b :: s ->
  In (fst b) refs /\ snd b = ratio q (fst b) /\ (t <= snd b)%Q
  /\ forall e, In e refs -> (t <= ratio q e)%Q -> (ratio q e <= snd b)%Q.
Proof.
  intros Es.
  pose proof (sort_desc_perm snd (close_matches ratio q refs t)) as Hp.
  pose proof (sort_desc_sorted snd (close_matches ratio q refs t)) as Hs.
  rewrite Es in Hp, Hs.
  assert (Hb : In b (close_matches ratio q refs t)).
  { apply (Permutation_in _ (Permutation_sym Hp)). now left. }
  destruct b as [e0 s0]. apply close_matches_In in Hb.
  destruct Hb as (He0 & -> & Ht). simpl. repeat split; try assumption.
  intros e He Hte.
  apply (sorted_desc_head snd _ _ Hs (e, ratio q e)).
  apply (Permutation_in _ Hp). apply close_matches_In. auto.
Qed.

Lemma check_name_threshold (refs : list str) (t1 t2 : Q) (q : str)
  (c2 : candidate) :
  (t1 <= t2)%Q ->
  fst (check_name ratio refs t2 q) = Some c2 ->
  exists c1,
    fst (check_name ratio refs t1 q) = Some c1
    /\ name c1 = name c2 /\ match_type c1 = match_type c2
    /\ (similarity c1 == similarity c2)%Q
    /\ incl (existing_matches c2) (existing_matches c1).
Proof.
  intros Ht Hc2. destruct (match_type c2) eqn:Ek.
  - destruct (check_name_exact_inv ratio _ _ _ _ Hc2 Ek) as [Hq ->].
    exists (Candidate q exact 1 [q]).
    rewrite (check_name_exact ratio refs t1 q Hq).
    repeat split; try reflexivity. apply incl_refl.
  - destruct (check_name_fuzzy ratio _ _ _ _ Hc2 Ek)
      as [Hq (b2 & s2 & Es2 & ->)].
    destruct (sorted_best _ _ _ _ _ Es2) as (Hb2 & Eb2 & Htb2 & Hmax2).
    unfold check_name.
    destruct (mem q refs) eqn:Em; [apply mem_In in Em; tauto|].
    destruct (sort_desc snd (close_matches ratio q refs t1)) as [|b1 s1]
      eqn:Es1.
    + exfalso.
      assert (Hin : In (fst b2) (map fst (sort_desc snd
                                   (close_matches ratio q refs t1)))).
      { apply sorted_matches_In. split; [assumption|].
        apply Qle_trans with t2; [assumption|]. now rewrite <- Eb2. }
      rewrite Es1 in Hin. destruct Hin.
    + destruct (sorted_best _ _ _ _ _ Es1) as (Hb1 & Eb1 & Htb1 & Hmax1).
      eexists. split; [reflexivity|]. cbn [name match_type similarity
                                           existing_matches].
      repeat split.
      * apply Qle_antisym.
        -- rewrite Eb1. apply Hmax2; [assumption|].
           rewrite <- Eb1. apply Qle_trans with (snd b2); [assumption|].
           rewrite Eb2. apply Hmax1; [assumption|].
           apply Qle_trans with t2; [assumption|]. now rewrite <- Eb2.
        -- rewrite Eb2. apply Hmax1; [assumption|].
           apply Qle_trans with t2; [assumption|]. now rewrite <- Eb2.
      * intros e He. rewrite <- Es1. rewrite <- Es2 in He.
        apply sorted_matches_In. apply sorted_matches_In in He.
        destruct He as [He Hte]. split; [assumption|].
        now apply Qle_trans with t2.
Qed.

End CandidateFacts.

(** X3: a fuzzy candidate is not in the reference set; its matches are
    exactly the reference names whose ratio to it reaches the threshold;
    its similarity is the ratio of one of them, is the greatest of their
    ratios and reaches the threshold. *)
Theorem fuzzy_candidate_matches
  (order : set_order) (ratio : str -> str -> Q)
  (names1 names2 : list (option str)) (threshold : Q)
  (report : list candidate) (c : candidate) :
  find_potential_duplicates order ratio names1 names2 threshold = Ok report ->
  In c report ->
  match_type c = fuzzy ->
  ~ In (name c) (map clean (notna names2))
  /\ (forall e, In e (existing_matches c)
                <-> In e (map clean (notna names2))
                    /\ (threshold <= ratio (name c) e)%Q)
  /\ (exists e, In e (existing_matches c)
                /\ similarity c = ratio (name c) e)
  /\ (forall e, In e (existing_matches c) ->
                (ratio (name c) e <= similarity c)%Q)
  /\ (threshold <= similarity c)%Q.
Proof.
  intros H Hc Hf. apply (report_In order ratio _ _ _ _ c H) in Hc.
  destruct Hc as [q [_ Hc]].
  destruct (check_name_fuzzy ratio _ _ _ _ Hc Hf) as [Hq (b & s & Es & ->)].
  destruct (sorted_best ratio _ _ _ _ _ Es) as (Hb & Eb & Htb & Hmax).
  cbn [name existing_matches similarity]. rewrite <- Es.
  split; [intros Hin; apply Hq; now apply reference_set_In|].
  split; [|split; [|split]].
  - intros e. rewrite sorted_matches_In, reference_set_In. tauto.
  - exists (fst b). split; [|assumption].
    apply sorted_matches_In. split; [assumption | now rewrite <- Eb].
  - intros e He. apply sorted_matches_In in He. now apply Hmax.
  - assumption.
Qed.

Lemma fuzzy_candidate_matches_witness :
  (3 # 4 <= Difflib.nearest_double 8 10)%Q.
Proof.
  refine (proj2 (proj2 (proj2 (proj2
    (fuzzy_candidate_matches SetOrders.forward Difflib.ratio
       [Some (lit "Smithe, Jon")] [Some (lit "Smith, John A.")] (3 # 4)
       [Candidate (lit "smithe, jon") fuzzy (Difflib.nearest_double 8 10)
          [lit "smith, john a."]]
       (Candidate (lit "smithe, jon") fuzzy (Difflib.nearest_double 8 10)
          [lit "smith, john a."]) _ _ _))))).
  - vm_compute. reflexivity.
  - now left.
  - reflexivity.
Defined.

(** X4: a query that is not null has a candidate in the report exactly
    when its cleaned form is in the reference set or some reference name
    reaches the threshold against it. *)
Theorem candidate_iff_some_match
  (order : set_order) (ratio : str -> str -> Q)
  (names1 names2 : list (option str)) (threshold : Q)
  (report : list candidate) (query : str) :
  find_potential_duplicates order ratio names1 names2 threshold = Ok report ->
  In (Some query) names1 ->
  ((exists c, In c report /\ name c = clean query)
   <-> In (clean query) (map clean (notna names2))
       \/ exists e, In e (map clean (notna names2))
                    /\ (threshold <= ratio (clean query) e)%Q).
Proof.
  intros H Hq.
  assert (Hq' : In (clean query) (map clean (notna names1)))
    by now apply in_map, notna_In.
  assert (Hiff := check_name_Some_iff ratio (reference_set order names2)
                    threshold (clean query)).
  assert (Hrefs : forall x, In x (reference_set order names2)
                            <-> In x (map clean (notna names2)))
    by (intros; apply reference_set_In).
  split.
  - intros [c [Hc Hn]]. apply (report_In order ratio _ _ _ _ c H) in Hc.
    destruct Hc as [q [_ Hc]].
    pose proof (check_name_name ratio _ _ _ _ Hc) as E.
    rewrite Hn in E. subst q.
    destruct (proj1 Hiff (ex_intro _ c Hc)) as [Hin|[e [He Ht]]].
    + left. now apply Hrefs.
    + right. exists e. split; [now apply Hrefs | assumption].
  - intros Hm.
    assert (Hm' : In (clean query) (reference_set order names2)
                  \/ exists e, In e (reference_set order names2)
                               /\ (threshold <= ratio (clean query) e)%Q).
    { destruct Hm as [Hin|[e [He Ht]]]; [left; now apply Hrefs|].
      right. exists e. split; [now apply Hrefs | assumption]. }
    destruct (proj2 Hiff Hm') as [c Hc]. exists c. split.
    + apply (report_In order ratio _ _ _ _ c H). now exists (clean query).
    + exact (check_name_name ratio _ _ _ _ Hc).
Qed.

Lemma candidate_iff_some_match_witness :
  (exists c,
      In c [Candidate (lit "smithe, jon") fuzzy (Difflib.nearest_double 8 10)
              [lit "smith, john a."]]
      /\ name c = clean (lit "Smithe, Jon"))
  <-> In (clean (lit "Smithe, Jon"))
         (map clean (notna [Some (lit "Smith, John A.")]))
      \/ exists e, In e (map clean (notna [Some (lit "Smith, John A.")]))
                   /\ (3 # 4 <= Difflib.ratio (clean (lit "Smithe, Jon")) e)%Q.
Proof.
  apply (candidate_iff_some_match SetOrders.forward Difflib.ratio
           [Some (lit "Smithe, Jon"); Some (lit "Zed, Nobody")]
           [Some (lit "Smith, John A.")] (3 # 4)
           [Candidate (lit "smithe, jon") fuzzy (Difflib.nearest_double 8 10)
              [lit "smith, john a."]] (lit "Smithe, Jon")).
  - vm_compute. reflexivity.
  - now left.
Defined.

(** X5: a matches list names no reference twice, even when the reference
    list holds the same name several times or in several spellings that
    clean to the same string. *)
Theorem matches_without_duplicates
  (order : set_order) (ratio : str -> str -> Q)
  (names1 names2 : list (option str)) (threshold : Q)
  (report : list candidate) (c : candidate) :
  find_potential_duplicates order ratio names1 names2 threshold = Ok report ->
  In c report ->
  NoDup (existing_matches c).
Proof.
  intros H Hc. apply (report_In order ratio _ _ _ _ c H) in Hc.
  destruct Hc as [q [_ Hc]].
  apply (check_name_matches_NoDup ratio (reference_set order names2)
           threshold q c); [apply iter_NoDup | assumption].
Qed.

Lemma matches_without_duplicates_witness :
  NoDup [lit "smith, john a."].
Proof.
  apply (matches_without_duplicates SetOrders.forward Difflib.ratio
           [Some (lit "Smithe, Jon")]
           [Some (lit "Smith, John A."); Some (lit " smith, john a. ")]
           (3 # 4)
           [Candidate (lit "smithe, jon") fuzzy (Difflib.nearest_double 8 10)
              [lit "smith, john a."]]
           (Candidate (lit "smithe, jon") fuzzy (Difflib.nearest_double 8 10)
              [lit "smith, john a."])).
  - vm_compute. reflexivity.
  - now left.
Defined.

(** X6: lowering the threshold loses nothing: every candidate of the
    report at the higher threshold is in the report at the lower one with
    the same name, match type and similarity and at least the same
    matches, and the report at the lower threshold is at least as long. *)
Theorem report_threshold_monotone
  (order : set_order) (ratio : str -> str -> Q)
  (names1 names2 : list (option str)) (t1 t2 : Q)
  (report2 : list candidate) :
  (t1 <= t2)%Q ->
  find_potential_duplicates order ratio names1 names2 t2 = Ok report2 ->
  exists report1,
    find_potential_duplicates order ratio names1 names2 t1 = Ok report1
    /\ length report2 <= length report1
    /\ forall c2, In c2 report2 ->
         exists c1, In c1 report1
                    /\ name c1 = name c2 /\ match_type c1 = match_type c2
                    /\ (similarity c1 == similarity c2)%Q
                    /\ incl (existing_matches c2) (existing_matches c1).
Proof.
  intros Ht H2.
  assert (Hlen : length (results order ratio names1 names2 t2)
                 <= length (results order ratio names1 names2 t1)).
  { unfold results. induction (map clean (notna names1)) as [|q qs IH];
      simpl; [lia|]. rewrite !length_app.
    destruct (fst (check_name ratio (reference_set order names2) t2 q))
      as [c2|] eqn:E2; [|simpl; lia].
    destruct (check_name_threshold ratio _ _ _ _ _ Ht E2) as [c1 [E1 _]].
    rewrite E1. simpl. lia. }
  pose proof (report_perm order ratio _ _ _ _ H2) as Hp2.
  assert (Hne : results order ratio names1 names2 t1 <> []).
  { intros E. rewrite E in Hlen. simpl in Hlen.
    destruct (results order ratio names1 names2 t2) eqn:E2;
      [|simpl in Hlen; lia].
    unfold find_potential_duplicates in H2. rewrite E2 in H2. discriminate. }
  pose proof (find_potential_duplicates_Ok order ratio _ _ _ Hne) as H1.
  eexists. split; [exact H1|]. split.
  - rewrite <- (Permutation_length Hp2).
    now rewrite <- (Permutation_length (sort_desc_perm similarity _)).
  - intros c2 Hc2. apply (report_In order ratio _ _ _ _ c2 H2) in Hc2.
    destruct Hc2 as [q [Hq Hc2]].
    destruct (check_name_threshold ratio _ _ _ _ _ Ht Hc2) as [c1 [E1 Hrel]].
    exists c1. split; [|exact Hrel].
    apply (report_In order ratio _ _ _ _ c1 H1). now exists q.
Qed.

Lemma report_threshold_monotone_witness :
  exists report1,
    find_potential_duplicates SetOrders.forward Difflib.ratio
      [Some (lit "Smithe, Jon")] [Some (lit "Smith, John A.")] (1 # 2)
    = Ok report1
    /\ 1 <= length report1.
Proof.
  destruct (report_threshold_monotone SetOrders.forward Difflib.ratio
              [Some (lit "Smithe, Jon")] [Some (lit "Smith, John A.")]
              (1 # 2) (3 # 4)
              [Candidate (lit "smithe, jon") fuzzy
                 (Difflib.nearest_double 8 10) [lit "smith, john a."]])
    as [report1 [H1 [H2 _]]].
  - discriminate.
  - vm_compute. reflexivity.
  - exists report1. split; [exact H1 | exact H2].
Defined.

(** ** More on combining name parts *)

Section StripFacts.

Lemma lstrip_head (s : str) :
  lstrip s = [] \/ exists c r, lstrip s = c :: r /\ isspace c = false.
Proof.
  induction s as [|c s IH]; simpl; [now left|].
  destruct (isspace c) eqn:Hc; [exact IH|]. right. now exists c, s.
Qed.

Lemma rstrip_idem (s : str) : rstrip (rstrip s) = rstrip s.
Proof.
  induction s as [|c s IH]; simpl; [reflexivity|].
  destruct (rstrip s) as [|r rs] eqn:Er.
  - destruct (isspace c) eqn:Hc; simpl; [reflexivity | now rewrite Hc].
  - change (rstrip (c :: r :: rs))
      with (match rstrip (r :: rs) with
            | [] => if isspace c then [] else [c]
            | x :: l => c :: x :: l
            end).
    now rewrite IH.
Qed.

Lemma rstrip_nonspace_head (c : ascii) (s : str) :
  isspace c = false -> exists r, rstrip (c :: s) = c :: r.
Proof.
  intros Hc. simpl. destruct (rstrip s); [rewrite Hc|]; eauto.
Qed.

Lemma strip_idem (s : str) : strip (strip s) = strip s.
Proof.
  unfold strip. destruct (lstrip_head s) as [E|(c & r & E & Hc)]; rewrite E.
  - reflexivity.
  - destruct (rstrip_nonspace_head c r Hc) as [r' Er]. rewrite Er.
    simpl lstrip. rewrite Hc, <- Er. apply rstrip_idem.
Qed.

Lemma In_lstrip (c : ascii) (s : str) :
  isspace c = false -> In c s -> In c (lstrip s).
Proof.
  intros Hc. induction s as [|d s IH]; simpl; [tauto|].
  destruct (isspace d) eqn:Hd; [|simpl; tauto].
  intros [->|H]; [congruence | auto].
Qed.

Lemma In_rstrip (c : ascii) (s : str) :
  isspace c = false -> In c s -> In c (rstrip s).
Proof.
  intros Hc. induction s as [|d s IH]; simpl; [tauto|].
  intros [->|H].
  - destruct (rstrip s); [rewrite Hc|]; now left.
  - specialize (IH H). destruct (rstrip s); [destruct IH | now right].
Qed.

Lemma In_strip (c : ascii) (s : str) :
  isspace c = false -> In c s -> In c (strip s).
Proof. intros Hc H. now apply In_rstrip, In_lstrip. Qed.

End StripFacts.

Lemma combine_row_Ok (last first middle : option str) :
  combine_row (last, first, middle)
  = Ok (strip (clean_name_part last ++ lit ", " ++ clean_name_part first
               ++ lit " " ++ clean_name_part middle)).
Proof.
  destruct (combine_row_never_raises (last, first, middle)) as [n H].
  unfold combine_row in *.
  destruct (strip _) eqn:E; [discriminate | reflexivity].
Qed.

Lemma combine_name_parts_Ok (rows : list row) :
  exists names,
    combine_name_parts rows = Ok names
    /\ length names = length rows
    /\ Forall (fun n => strip n = n /\ In comma n) names.
Proof.
  unfold combine_name_parts.
  induction rows as [|[[last first] middle] rows (names & E & Hl & Hf)].
  - exists []. repeat split. constructor.
  - eexists.
    change (for_each combine_row ((last, first, middle) :: rows))
      with (bind (combine_row (last, first, middle))
              (fun y => bind (for_each combine_row rows)
                          (fun ys => Ok (y :: ys)))).
    rewrite combine_row_Ok, E. simpl bind.
    split; [reflexivity|]. split; [simpl; now rewrite Hl|].
    constructor; [|assumption]. split; [apply strip_idem|].
    apply In_strip; [reflexivity|]. apply in_or_app. right. now left.
Qed.

(** X7: [combine_name_parts] never raises; it gives one name for each
    row, and every name holds a comma and has no whitespace at either
    end. *)
Theorem combine_name_parts_total (rows : list row) :
  exists names,
    combine_name_parts rows = Ok names
    /\ length names = length rows
    /\ Forall (fun n => strip n = n /\ In comma n) names.
Proof. apply combine_name_parts_Ok. Qed.



(** ** More on splitting full names *)

Section SplitFacts.

Lemma blank_false_split_ws (x : str) : blank x = false -> split_ws x <> [].
Proof.
  induction x as [|c x IH]; [discriminate|].
  destruct (isspace c) eqn:Hc.
  - rewrite split_ws_space by assumption. simpl. rewrite Hc. exact IH.
  - intros _. now apply split_ws_nonspace.
Qed.

Lemma split_ws_join_words (ts : list str) :
  Forall word ts -> split_ws (join (lit " ") ts) = ts.
Proof.
  induction ts as [|t ts IH]; intros H; [reflexivity|].
  inversion H as [|? ? Ht Hts]; subst.
  destruct ts as [|t' ts]; [now apply split_ws_word|].
  rewrite join_cons by discriminate. change (lit " ") with [" "%char].
  change (t ++ [" "%char] ++ join [" "%char] (t' :: ts))
    with (t ++ " "%char :: join [" "%char] (t' :: ts)).
  rewrite split_ws_app_space by reflexivity.
  rewrite (split_ws_word t Ht). change [" "%char] with (lit " ").
  now rewrite IH.
Qed.

Lemma In_lstrip_inv (c : ascii) (s : str) : In c (lstrip s) -> In c s.
Proof.
  induction s as [|d s IH]; simpl; [tauto|].
  destruct (isspace d); [auto | simpl; tauto].
Qed.

Lemma In_rstrip_inv (c : ascii) (s : str) : In c (rstrip s) -> In c s.
Proof.
  induction s as [|d s IH]; simpl; [tauto|].
  destruct (rstrip s) as [|r rs].
  - destruct (isspace d); simpl; tauto.
  - intros [->|H]; [now left | right; now apply IH].
Qed.

Lemma In_strip_inv (c : ascii) (s : str) : In c (strip s) -> In c s.
Proof. intros H. now apply In_lstrip_inv, In_rstrip_inv. Qed.

Lemma split_ws_In (c : ascii) (t x : str) :
  In t (split_ws x) -> In c t -> In c x.
Proof.
  revert t. induction x as [|d x IH]; intros t; [intros []|].
  simpl split_ws. destruct (isspace d).
  - intros Ht Hc. right. now apply (IH t).
  - destruct x as [|d' x].
    + intros [<-|[]] [<-|[]]. now left.
    + destruct (isspace d').
      * intros [<-|Ht] Hc.
        -- destruct Hc as [<-|[]]. now left.
        -- right. now apply (IH t).
      * destruct (split_ws (d' :: x)) as [|t0 ts].
        -- intros [<-|[]] [<-|[]]. now left.
        -- intros [<-|Ht] Hc.
           ++ destruct Hc as [<-|Hc]; [now left|].
              right. apply (IH t0); [now left | assumption].
           ++ right. apply (IH t); [now right | assumption].
Qed.

Lemma In_join (c : ascii) (sep : str) (ts : list str) :
  In c (join sep ts) -> In c sep \/ exists t, In t ts /\ In c t.
Proof.
  induction ts as [|t ts IH]; [intros []|].
  destruct ts as [|t' ts].
  - intros H. right. exists t. split; [now left | assumption].
  - rewrite join_cons by discriminate. intros H.
    apply in_app_or in H. destruct H as [H|H].
    + right. exists t. split; [now left | assumption].
    + apply in_app_or in H. destruct H as [H|H]; [now left|].
      destruct (IH H) as [Hs|[t0 [Ht0 Hc]]]; [now left|].
      right. exists t0. split; [now right | assumption].
Qed.

Lemma before_comma_no_comma (s : str) : ~ In comma (before_comma s).
Proof.
  induction s as [|c s IH]; simpl; [tauto|].
  destruct (Ascii.eqb_spec c comma) as [->|Hne]; simpl; [tauto|].
  intros [H|H]; [now apply Hne | now apply IH].
Qed.

Lemma after_comma_no_comma (s : str) :
  count_char comma s = 1 -> ~ In comma (after_comma s).
Proof.
  unfold count_char. induction s as [|c s IH]; simpl; [discriminate|].
  destruct (ascii_dec c comma) as [->|Hne].
  - rewrite Ascii.eqb_refl. intros H. apply count_occ_not_In with ascii_dec.
    lia.
  - rewrite (proj2 (Ascii.eqb_neq c comma) Hne). exact IH.
Qed.

Lemma no_comma_count (s : str) : ~ In comma s -> count_char comma s = 0.
Proof. intros H. now apply count_occ_not_In. Qed.

(** What a successful split was made of. *)
Lemma parse_fullname_Ok_inv (s last first middle : str) :
  parse_fullname (Some s) = Ok (last, first, middle) ->
  strip s <> [] /\ count_char comma s = 1
  /\ last = strip (before_comma s)
  /\ exists ts p,
       split_ws (strip (after_comma s)) = ts ++ [p]
       /\ ((ends_with_period p = true
            /\ first = join (lit " ") ts /\ middle = p)
           \/ (ends_with_period p = false
               /\ first = join (lit " ") (ts ++ [p]) /\ middle = [])).
Proof.
  intros H.
  assert (Hs : strip s <> []).
  { intros E. unfold parse_fullname in H. rewrite E in H. discriminate. }
  assert (Hc : count_char comma s = 1).
  { destruct (Nat.eq_dec (count_char comma s) 1) as [E|E]; [assumption|].
    destruct (parse_fullname_comma_count s E) as [msg Hm]. congruence. }
  split; [assumption|]. split; [assumption|].
  rewrite parse_fullname_one_comma in H by assumption. cbv zeta in H.
  destruct (rev (split_ws (strip (after_comma s)))) as [|p ps] eqn:Er;
    [discriminate|].
  assert (Ets : split_ws (strip (after_comma s)) = rev ps ++ [p]).
  { apply (f_equal (@rev str)) in Er. now rewrite rev_involutive in Er. }
  rewrite Ets in H.
  destruct (ends_with_period p) eqn:Ep; injection H as <- <- <-.
  - split; [reflexivity|]. exists (rev ps), p. split; [assumption|].
    left. rewrite removelast_last. auto.
  - split; [reflexivity|]. exists (rev ps), p. split; [assumption|].
    right. auto.
Qed.

End SplitFacts.

(** X9: the loop body of [parse_fullnames] returns name parts exactly for
    the strings that are not blank, hold one comma and have a word after
    the comma; on every other value it raises. *)
Theorem parse_fullname_Ok_iff (s : str) :
  (exists parts, parse_fullname (Some s) = Ok parts)
  <-> strip s <> [] /\ count_char comma s = 1
      /\ blank (after_comma s) = false.
Proof.
  split.
  - intros [[[last first] middle] H].
    destruct (parse_fullname_Ok_inv _ _ _ _ H)
      as (Hs & Hc & _ & ts & p & Ets & _).
    repeat split; try assumption.
    destruct (blank (after_comma s)) eqn:Eb; [|reflexivity].
    apply strip_nil_iff in Eb. rewrite Eb in Ets.
    destruct ts; discriminate.
  - intros (Hs & Hc & Hb).
    rewrite parse_fullname_one_comma by assumption. cbv zeta.
    assert (Hne : split_ws (strip (after_comma s)) <> []).
    { rewrite split_ws_strip. now apply blank_false_split_ws. }
    destruct (rev (split_ws (strip (after_comma s)))) as [|p ps] eqn:Er.
    + apply (f_equal (@rev str)) in Er. rewrite rev_involutive in Er.
      simpl in Er. congruence.
    + destruct (ends_with_period p); eauto.
Qed.

Lemma parse_fullname_canonical (s last first middle : str) :
  parse_fullname (Some s) = Ok (last, first, middle) ->
  last <> [] -> first <> [] ->
  canonical_parts last first middle.
Proof.
  intros H Hl Hf.
  destruct (parse_fullname_Ok_inv _ _ _ _ H)
    as (Hs & Hc & El & ts & p & Ets & Hcase).
  pose proof (split_ws_words (strip (after_comma s))) as Hw.
  rewrite Ets in Hw. apply Forall_app in Hw. destruct Hw as [Hwts Hwp].
  inversion Hwp as [|? ? Hp _]; subst.
  assert (Htok : forall t, In t (ts ++ [p]) -> ~ In comma t).
  { intros t Ht Hin. apply (after_comma_no_comma s Hc).
    apply In_strip_inv. apply (split_ws_In comma t); [|assumption].
    now rewrite Ets. }
  assert (Hjoin : forall ws, incl ws (ts ++ [p]) ->
                             ~ In comma (join (lit " ") ws)).
  { intros ws Hincl Hin. apply In_join in Hin.
    destruct Hin as [[E|[]]|[t [Ht Hct]]]; [discriminate|].
    exact (Htok t (Hincl t Ht) Hct). }
  unfold canonical_parts.
  split; [assumption|]. split; [apply strip_idem|].
  split.
  { apply no_comma_count. intros Hin. apply In_strip_inv in Hin.
    exact (before_comma_no_comma s Hin). }
  split; [assumption|].
  destruct Hcase as [(Ep & -> & ->)|(Ep & -> & ->)].
  - split; [now rewrite split_ws_join_words|].
    split.
    { apply no_comma_count, Hjoin. intros t Ht. apply in_or_app. now left. }
    split.
    { apply no_comma_count, Htok. apply in_or_app. right. now left. }
    split; [apply Hp|].
    destruct p; [now destruct Hp | assumption].
  - assert (Hall : Forall word (ts ++ [p])) by now apply Forall_app.
    split; [now rewrite split_ws_join_words|].
    split; [apply no_comma_count, Hjoin, incl_refl|].
    split; [reflexivity|]. split; [reflexivity|].
    rewrite ends_with_period_join_snoc; [assumption | apply Hp].
Qed.

(** X10: the parts returned for a string are in the shape the format
    describes: when the last and first names found are not empty, no part
    holds a comma, the last name is trimmed, the first name is words
    separated by single spaces, and the middle name is empty or one word
    ending with a period. *)
Theorem parse_fullname_parts_canonical (s last first middle : str) :
  parse_fullname (Some s) = Ok (last, first, middle) ->
  last <> [] -> first <> [] ->
  canonical_parts last first middle.
Proof. apply parse_fullname_canonical. Qed.

Lemma parse_fullname_parts_canonical_witness :
  canonical_parts (lit "Doe") (lit "Jane Q") (lit "M.").
Proof.
  apply (parse_fullname_parts_canonical (lit "  Doe ,Jane   Q  M. ")).
  - reflexivity.
  - discriminate.
  - discriminate.
Defined.

Section BatchFacts.

Lemma for_each_Ok_iff {A B : Type} (body : A -> result B) (l : list A)
  (ys : list B) :
  for_each body l = Ok ys <-> Forall2 (fun x y => body x = Ok y) l ys.
Proof.
  revert ys. induction l as [|x l IH]; intros ys; simpl.
  - split.
    + intros E. injection E as <-. constructor.
    + intros H. now inversion H.
  - destruct (body x) as [y|e] eqn:Ex; simpl.
    + destruct (for_each body l) as [ys'|e] eqn:El; simpl.
      * split.
        -- intros E. injection E as <-. constructor; [assumption|].
           now apply IH.
        -- intros H. inversion H as [|? y0 ? ys0 Hy Hys]; subst.
           apply IH in Hys. congruence.
      * split; [discriminate|].
        intros H. inversion H as [|? y0 ? ys0 Hy Hys]; subst.
        apply IH in Hys. discriminate.
    + split; [discriminate|].
      intros H. inversion H; subst. congruence.
Qed.

Lemma rebuilt_check_iff (col : list (option str))
  (rows : list (str * str * str)) :
  Forall2 (fun cell n => exists s, cell = Some s) col rows ->
  (forallb (fun p => str_eqb (reconstruct (snd p)) (show (fst p)))
           (combine col rows) = true
   <-> Forall2 (fun cell n => cell = Some (reconstruct n)) col rows).
Proof.
  induction 1 as [|cell n col rows [s ->] _ IH]; simpl.
  - split; [constructor | reflexivity].
  - rewrite andb_true_iff, IH, str_eqb_eq. split.
    + intros [<- H]. now constructor.
    + intros H. inversion H as [|? ? ? ? E Hr]; subst.
      injection E as E. split; [congruence | assumption].
Qed.

Lemma parse_fullname_Some (cell : option str) (n : str * str * str) :
  parse_fullname cell = Ok n -> exists s, cell = Some s.
Proof. destruct cell; [eauto | discriminate]. Qed.

End BatchFacts.

Lemma parse_fullnames_Ok_Forall2 (col : list (option str))
  (rows : list (str * str * str)) :
  col <> [] ->
  (parse_fullnames col = Ok rows
   <-> Forall2 (fun cell n => parse_fullname cell = Ok n
                              /\ cell = Some (reconstruct n)) col rows).
Proof.
  intros _. unfold parse_fullnames. split.
  - destruct (for_each parse_fullname col) as [rows'|e] eqn:E; simpl;
      [|discriminate].
    destruct (forallb _ _) eqn:Ef; [|discriminate].
    intros H. injection H as <-.
    apply for_each_Ok_iff in E.
    assert (Hs : Forall2 (fun cell n => exists s, cell = Some s) col rows').
    { eapply Forall2_impl; [|exact E]. intros cell n.
      apply parse_fullname_Some. }
    apply (rebuilt_check_iff _ _ Hs) in Ef.
    clear Hs. induction E as [|cell n col rows' Hn E IH]; [constructor|].
    inversion Ef; subst. constructor; [now split | now apply IH].
  - intros H.
    assert (E : Forall2 (fun cell n => parse_fullname cell = Ok n) col rows).
    { eapply Forall2_impl; [|exact H]. simpl. tauto. }
    assert (Er : Forall2 (fun cell n => cell = Some (reconstruct n)) col rows).
    { eapply Forall2_impl; [|exact H]. simpl. tauto. }
    rewrite (proj2 (for_each_Ok_iff _ _ _) E). simpl.
    assert (Hs : Forall2 (fun cell n => exists s, cell = Some s) col rows).
    { eapply Forall2_impl; [|exact E]. intros cell n.
      apply parse_fullname_Some. }
    now rewrite (proj2 (rebuilt_check_iff _ _ Hs) Er).
Qed.



(** X12: when [parse_fullnames] returns, it gives one row for each cell,
    and every cell of the column was a string with no whitespace at
    either end and exactly one comma. *)
Theorem parse_fullnames_accepts_trimmed (col : list (option str))
  (rows : list (str * str * str)) :
  col <> [] ->
  parse_fullnames col = Ok rows ->
  length rows = length col
  /\ Forall (fun cell => exists s, cell = Some s /\ strip s = s
                                   /\ count_char comma s = 1) col.
Proof.
  intros Hne H. apply (parse_fullnames_Ok_Forall2 col rows Hne) in H.
  split.
  - symmetry. exact (Forall2_length H).
  - clear Hne. induction H as [|cell [[l f] m] col rows [Hp ->] _ IH];
      constructor; [|assumption].
    eexists. split; [reflexivity|]. split.
    + unfold reconstruct. apply strip_idem.
    + exact (proj1 (proj2 (parse_fullname_Ok_inv _ _ _ _ Hp))).
Qed.

Lemma parse_fullnames_accepts_trimmed_witness :
  length [(lit "Doe", lit "Jane", lit "M.")]
  = length [Some (lit "Doe, Jane M.")].
Proof.
  refine (proj1 (parse_fullnames_accepts_trimmed
                   [Some (lit "Doe, Jane M.")]
                   [(lit "Doe", lit "Jane", lit "M.")] _ _)).
  - discriminate.
  - reflexivity.
Defined.




(** X14: splitting is stable: parts obtained by splitting a string, when
    the last and first names are not empty, are given back unchanged by
    combining them and splitting again. *)
Theorem split_combine_split (s last first middle : str) :
  parse_fullname (Some s) = Ok (last, first, middle) ->
  last <> [] -> first <> [] ->
  split_of_combine last first middle = Ok (last, first, middle).
Proof.
  intros H Hl Hf.
  pose proof (parse_fullname_canonical s last first middle H Hl Hf)
    as Hc.
  unfold split_of_combine.
  rewrite (combine_row_canonical last first middle Hc). simpl bind.
  now apply split_canonical.
Qed.

Lemma split_combine_split_witness :
  split_of_combine (lit "Doe") (lit "Jane Q") (lit "M.")
  = Ok (lit "Doe", lit "Jane Q", lit "M.").
Proof.
  apply (split_combine_split (lit "  Doe ,Jane   Q  M. "));
    [reflexivity | discriminate | discriminate].
Defined.

(** ** The date in a file name *)

Section DateFacts.

Lemma search_date_eq (text : str) :
  search_date text
  = match match_date text with
    | Some groups => Some groups
    | None =>
        match text with
        | [] => None
        | _ :: text' => search_date text'
        end
    end.
Proof. destruct text; reflexivity. Qed.

Lemma match_date_Some (s year month day : str) :
  match_date s = Some (year, month, day) ->
  length year = 4 /\ length month = 2 /\ length day = 2
  /\ forallb is_digit (year ++ month ++ day) = true
  /\ exists post,
       s = (year ++ lit "." ++ month ++ lit "." ++ day) ++ post.
Proof.
  unfold match_date.
  destruct s as [|y1 [|y2 [|y3 [|y4 [|p1 [|m1 [|m2 [|p2 [|d1 [|d2 post]]]]]]]]]];
    try discriminate.
  destruct (forallb is_digit [y1; y2; y3; y4; m1; m2; d1; d2]) eqn:Ed;
    [|discriminate].
  destruct (Ascii.eqb_spec p1 "."%char) as [->|]; [|discriminate].
  destruct (Ascii.eqb_spec p2 "."%char) as [->|]; [|discriminate].
  simpl. intros E. injection E as <- <- <-.
  repeat split; try reflexivity; [exact Ed|]. now exists post.
Qed.

Lemma search_date_Some (text year month day : str) :
  search_date text = Some (year, month, day) ->
  exists pre rest, text = pre ++ rest
                   /\ match_date rest = Some (year, month, day).
Proof.
  induction text as [|c text IH]; rewrite search_date_eq.
  - discriminate.
  - destruct (match_date (c :: text)) as [g|] eqn:Em.
    + intros E. injection E as ->. now exists [], (c :: text).
    + intros H. destruct (IH H) as (pre & rest & -> & Hr).
      now exists (c :: pre), rest.
Qed.

Lemma match_date_nondigit (c : ascii) (t : str) :
  is_digit c = false -> match_date (c :: t) = None.
Proof.
  intros Hc. unfold match_date.
  destruct t as [|y2 [|y3 [|y4 [|p1 [|m1 [|m2 [|p2 [|d1 [|d2 post]]]]]]]]];
    try reflexivity.
  simpl. now rewrite Hc.
Qed.

Lemma search_date_skip (pre rest : str) :
  forallb (fun c => negb (is_digit c)) pre = true ->
  search_date (pre ++ rest) = search_date rest.
Proof.
  induction pre as [|c pre IH]; [reflexivity|]. simpl forallb.
  intros H. apply andb_true_iff in H. destruct H as [Hc Hp].
  apply negb_true_iff in Hc.
  rewrite <- app_comm_cons, search_date_eq.
  rewrite (match_date_nondigit c _ Hc). now apply IH.
Qed.

Lemma match_date_formatted (year month day post : str) :
  length year = 4 -> length month = 2 -> length day = 2 ->
  forallb is_digit (year ++ month ++ day) = true ->
  match_date ((year ++ lit "." ++ month ++ lit "." ++ day) ++ post)
  = Some (year, month, day).
Proof.
  intros Hy Hm Hd Hdig.
  destruct year as [|y1 [|y2 [|y3 [|y4 [|]]]]]; try discriminate.
  destruct month as [|m1 [|m2 [|]]]; try discriminate.
  destruct day as [|d1 [|d2 [|]]]; try discriminate.
  change (forallb is_digit [y1; y2; y3; y4; m1; m2; d1; d2] = true) in Hdig.
  unfold match_date. cbn [app lit list_ascii_of_string].
  now rewrite Hdig.
Qed.

Lemma days_in_month_le (year month : nat) : days_in_month year month <= 31.
Proof.
  unfold days_in_month.
  do 13 (destruct month as [|month]; [try lia; destruct (is_leap year); lia|]).
  lia.
Qed.

Lemma extract_date_Some_inv (text d : str) :
  extract_date text = Some d ->
  exists pre year month day post,
    text = pre ++ d ++ post
    /\ d = year ++ lit "." ++ month ++ lit "." ++ day
    /\ length year = 4 /\ length month = 2 /\ length day = 2
    /\ forallb is_digit (year ++ month ++ day) = true
    /\ valid_date (int_of_digits year) (int_of_digits month)
                  (int_of_digits day) = true.
Proof.
  unfold extract_date.
  destruct (search_date text) as [[[year month] day]|] eqn:Es;
    [|discriminate].
  destruct (valid_date _ _ _) eqn:Ev; [|discriminate].
  intros E. injection E as <-.
  destruct (search_date_Some _ _ _ _ Es) as (pre & rest & -> & Hm).
  destruct (match_date_Some _ _ _ _ Hm) as (Hy & Hmo & Hd & Hdig & post & ->).
  exists pre, year, month, day, post. repeat split; assumption.
Qed.

End DateFacts.

(** X15: a date returned by [extract_date] is a piece of the text, ten
    characters long, of the form YYYY.MM.DD with digits only, and names a
    day of the calendar: month between 1 and 12, day between 1 and the
    length of that month. *)
Theorem extract_date_sound (text d : str) :
  extract_date text = Some d ->
  exists pre year month day post,
    text = pre ++ d ++ post
    /\ d = year ++ lit "." ++ month ++ lit "." ++ day
    /\ length d = 10
    /\ forallb is_digit (year ++ month ++ day) = true
    /\ 1 <= int_of_digits year
    /\ 1 <= int_of_digits month <= 12
    /\ 1 <= int_of_digits day
            <= days_in_month (int_of_digits year) (int_of_digits month)
    /\ days_in_month (int_of_digits year) (int_of_digits month) <= 31.
Proof.
  intros H.
  destruct (extract_date_Some_inv _ _ H)
    as (pre & year & month & day & post & Et & Ed & Hy & Hm & Hd & Hdig & Hv).
  exists pre, year, month, day, post.
  unfold valid_date in Hv. rewrite !andb_true_iff, !Nat.leb_le in Hv.
  repeat split; try tauto; try apply days_in_month_le.
  rewrite Ed, !length_app, Hy, Hm, Hd. reflexivity.
Qed.

Lemma extract_date_sound_witness :
  exists pre year month day post,
    lit "BU list 2024.02.29 final.xlsx"
    = pre ++ lit "2024.02.29" ++ post
    /\ lit "2024.02.29" = year ++ lit "." ++ month ++ lit "." ++ day
    /\ length (lit "2024.02.29") = 10.
Proof.
  destruct (extract_date_sound (lit "BU list 2024.02.29 final.xlsx")
              (lit "2024.02.29") eq_refl)
    as (pre & year & month & day & post & H1 & H2 & H3 & _).
  exists pre, year, month, day, post. auto.
Defined.

(** X16: the first text of the form YYYY.MM.DD decides alone: when no
    digit comes before it, [extract_date] returns it if it names a day of
    the calendar, and returns nothing otherwise, whatever follows, a
    later valid date included. *)
Theorem extract_date_first_pattern (pre year month day post : str) :
  forallb (fun c => negb (is_digit c)) pre = true ->
  length year = 4 -> length month = 2 -> length day = 2 ->
  forallb is_digit (year ++ month ++ day) = true ->
  extract_date (pre ++ (year ++ lit "." ++ month ++ lit "." ++ day) ++ post)
  = if valid_date (int_of_digits year) (int_of_digits month)
                  (int_of_digits day)
    then Some (year ++ lit "." ++ month ++ lit "." ++ day)
    else None.
Proof.
  intros Hpre Hy Hm Hd Hdig. unfold extract_date.
  rewrite (search_date_skip pre _ Hpre), search_date_eq.
  now rewrite (match_date_formatted year month day post Hy Hm Hd Hdig).
Qed.

Lemma extract_date_first_pattern_witness :
  extract_date (lit "list " ++ (lit "2023" ++ lit "." ++ lit "02" ++ lit "."
                                ++ lit "29") ++ lit " or 2024.02.29.xlsx")
  = None.
Proof.
  apply (extract_date_first_pattern (lit "list ") (lit "2023") (lit "02")
           (lit "29") (lit " or 2024.02.29.xlsx")); reflexivity.
Defined.

(** X17: [get_list_identifier] raises ValueError exactly when the file
    name holds no date; otherwise the identifier is "BU List Employer "
    followed by the date, 27 characters in all. *)
Theorem get_list_identifier_spec (infile_name : str) :
  match get_list_identifier infile_name with
  | Ok identifier =>
      exists d, extract_date infile_name = Some d
                /\ identifier = lit "BU List Employer " ++ d
                /\ length identifier = 27
  | Err e => extract_date infile_name = None /\ exists msg, e = ValueError msg
  end.
Proof.
  unfold get_list_identifier.
  destruct (extract_date infile_name) as [d|] eqn:E.
  - exists d. repeat split.
    destruct (extract_date_Some_inv _ _ E)
      as (_ & year & month & day & _ & _ & -> & Hy & Hm & Hd & _).
    rewrite !length_app, Hy, Hm, Hd. reflexivity.
  - split; [reflexivity | eauto].
Qed.

(** ** Name columns, addresses and the loaded table *)

Section ColumnFacts.

Lemma existsb_isna_false (cells : list (option str)) :
  existsb isna cells = false <-> ~ In None cells.
Proof.
  induction cells as [|[s|] cells IH]; simpl.
  - tauto.
  - rewrite IH. split; [intros H [E|E]; [discriminate | tauto] | tauto].
  - split; [discriminate | tauto].
Qed.

Lemma rstrip_commas_no_trailing (s x : str) :
  rstrip_commas s <> x ++ [comma].
Proof.
  revert x. induction s as [|c s IH]; intros x; simpl.
  - destruct x; discriminate.
  - destruct (rstrip_commas s) as [|r rs] eqn:Er.
    + destruct (Ascii.eqb_spec c comma) as [->|Hne].
      * destruct x; discriminate.
      * destruct x as [|a [|b x]]; try discriminate.
        intros E. injection E as E. contradiction.
    + destruct x as [|a x]; [discriminate|].
      intros E. injection E as -> E. exact (IH x E).
Qed.

Lemma join_no_trailing_comma (ks : list str) :
  Forall (fun k => forall x, k <> x ++ [comma]) ks ->
  forall x, join (lit " ") ks <> x ++ [comma].
Proof.
  induction ks as [|k ks IH]; intros H x.
  - destruct x; discriminate.
  - inversion H as [|? ? Hk Hks]; subst.
    destruct ks as [|k' ks]; [apply Hk|].
    rewrite join_cons by discriminate. intros E.
    destruct (rev (join (lit " ") (k' :: ks))) as [|z zs] eqn:Ez.
    + apply (f_equal (@rev ascii)) in Ez. rewrite rev_involutive in Ez.
      simpl rev in Ez. rewrite Ez, app_nil_r in E.
      apply app_inj_tail in E. destruct E as [_ E]. discriminate.
    + apply (f_equal (@rev ascii)) in Ez. rewrite rev_involutive in Ez.
      simpl rev in Ez. rewrite Ez, !app_assoc in E.
      apply app_inj_tail in E. destruct E as [_ ->].
      exact (IH Hks (rev zs) Ez).
Qed.

Lemma kept_no_trailing_comma (e : list (option str)) :
  Forall (fun k => forall x, k <> x ++ [comma]) (kept e).
Proof.
  unfold kept. apply Forall_flat_map. apply Forall_forall.
  intros [[|c r]|] _; constructor; [|constructor].
  apply rstrip_commas_no_trailing.
Qed.

Lemma clean_cell_truthy (x : option str) : clean_cell x -> truthy x = true.
Proof. destruct x as [[|c s]|]; simpl; [tauto | reflexivity..]. Qed.

End ColumnFacts.

(** X18: [check_names_lfm] passes exactly when the three columns exist
    and neither the last-name nor the first-name column has a missing
    value; missing middle names never make it fail. *)
Theorem check_names_lfm_Ok_iff (df : frame) (lastc firstc middlec : str) :
  check_names_lfm df lastc firstc middlec = Ok tt
  <-> exists last first middle,
        column df lastc = Ok last /\ column df firstc = Ok first
        /\ column df middlec = Ok middle
        /\ ~ In None last /\ ~ In None first.
Proof.
  unfold check_names_lfm. split.
  - destruct (column df lastc) as [last|] eqn:El; simpl; [|discriminate].
    destruct (existsb isna last) eqn:Hl; [discriminate|].
    destruct (column df firstc) as [first|] eqn:Ef; simpl; [|discriminate].
    destruct (existsb isna first) eqn:Hf; [discriminate|].
    destruct (column df middlec) as [middle|] eqn:Em; simpl; [|discriminate].
    intros _. exists last, first, middle.
    repeat split; try reflexivity; now apply existsb_isna_false.
  - intros (last & first & middle & -> & -> & -> & Hl & Hf). simpl.
    apply existsb_isna_false in Hl, Hf. now rewrite Hl, Hf.
Qed.

(** X19: [str_combine] leaves out the elements that are NaN or empty:
    such an element, wherever it stands, does not change the result. *)
Theorem str_combine_omits (xs ys : list (option str)) (x : option str) :
  x = None \/ x = Some [] ->
  str_combine (xs ++ x :: ys) = str_combine (xs ++ ys).
Proof.
  intros H. unfold str_combine, kept.
  rewrite !flat_map_app. simpl flat_map.
  now destruct H as [-> | ->].
Qed.

Lemma str_combine_omits_witness :
  str_combine ([Some (lit "12 Main St")] ++ None :: [Some (lit "Apt 4")])
  = str_combine ([Some (lit "12 Main St")] ++ [Some (lit "Apt 4")]).
Proof.
  apply (str_combine_omits [Some (lit "12 Main St")] [Some (lit "Apt 4")]
           None).
  now left.
Defined.

(** X20: the string made by [str_combine] never ends with a comma. *)
Theorem str_combine_no_trailing_comma (e : list (option str)) (x : str) :
  str_combine e <> x ++ [comma].
Proof.
  unfold str_combine. apply join_no_trailing_comma.
  apply kept_no_trailing_comma.
Qed.

(** X21: on a row whose city, state and zip cells are each NaN or a
    non-empty string, as [load_list] leaves them, the test of line 215
    always succeeds: the address is the two lines, then ", " if they gave
    anything, then city, state and zip.  When city, state and zip are all
    NaN, an address with a line therefore ends with ", ". *)
Theorem address_combined_clean_row
  (line1 line2 town st zip : option str) :
  clean_cell town -> clean_cell st -> clean_cell zip ->
  address_combined (line1, line2, town, st, zip)
  = match str_combine [line1; line2] with
    | [] => []
    | addr => addr ++ lit ", "
    end ++ str_combine [town; st; zip]
  /\ (town = None -> st = None -> zip = None ->
      str_combine [line1; line2] <> [] ->
      address_combined (line1, line2, town, st, zip)
      = str_combine [line1; line2] ++ lit ", ").
Proof.
  intros Ht Hs Hz. unfold address_combined.
  rewrite (clean_cell_truthy town Ht). simpl orb. split.
  - now destruct (str_combine [line1; line2]).
  - intros -> -> -> Hne.
    destruct (str_combine [line1; line2]); [congruence|].
    change (str_combine [None; None; None]) with (@nil ascii).
    now rewrite app_nil_r.
Qed.

Lemma address_combined_clean_row_witness :
  address_combined (Some (lit "12 Main St"), None, None, None, None)
  = lit "12 Main St, ".
Proof.
  refine (proj2 (address_combined_clean_row (Some (lit "12 Main St")) None
                   None None None I I I) eq_refl eq_refl eq_refl _).
  discriminate.
Defined.

Section LoadFacts.

Lemma strip_cell_clean (x : option str) :
  is_empty_cell (strip_cell x) = false -> clean_cell (strip_cell x).
Proof.
  destruct x as [s|]; simpl; [|trivial].
  destruct (strip s) eqn:E; [discriminate|]. intros _.
  split; [discriminate|]. rewrite <- E. apply strip_idem.
Qed.

Lemma existsb_empty_cell_iff (cells : list (option str)) :
  existsb is_empty_cell (map strip_cell cells) = true
  <-> exists s, In (Some s) cells /\ blank s = true.
Proof.
  rewrite existsb_exists. split.
  - intros [x [Hx He]]. apply in_map_iff in Hx.
    destruct Hx as [[s|] [<- Hin]]; [|discriminate].
    exists s. split; [assumption|]. simpl in He.
    apply strip_nil_iff. now destruct (strip s).
  - intros [s [Hin Hb]]. exists (Some []). split; [|reflexivity].
    apply in_map_iff. exists (Some s). split; [|assumption].
    simpl. f_equal. now apply strip_nil_iff.
Qed.

End LoadFacts.

(** X22: a table that [load_list] returns keeps its columns and their
    labels, each cell stripped, and every cell of it is NaN or a
    non-empty string with no whitespace at either end. *)
Theorem load_list_cells_clean (df df' : frame) :
  load_list df = inr df' ->
  df' = map (fun col => (fst col, map strip_cell (snd col))) df
  /\ map fst df' = map fst df
  /\ Forall (fun col => Forall clean_cell (snd col)) df'.
Proof.
  unfold load_list.
  destruct (existsb _ _) eqn:E; [discriminate|].
  intros H. injection H as <-. split; [reflexivity|]. split.
  - rewrite map_map. reflexivity.
  - apply Forall_forall. intros col Hcol. apply Forall_forall.
    intros x Hx.
    assert (Hx' : is_empty_cell x = false).
    { destruct (is_empty_cell x) eqn:Ex; [|reflexivity].
      assert (Ht : existsb (fun col => existsb is_empty_cell (snd col))
                     (map (fun col => (fst col, map strip_cell (snd col))) df)
                   = true).
      { apply existsb_exists. exists col. split; [assumption|].
        apply existsb_exists. now exists x. }
      congruence. }
    apply in_map_iff in Hcol. destruct Hcol as [[label cells] [<- _]].
    simpl in Hx. apply in_map_iff in Hx. destruct Hx as [y [<- _]].
    now apply strip_cell_clean.
Qed.

Lemma load_list_cells_clean_witness :
  Forall (fun col => Forall clean_cell (snd col))
         [(lit "Name", [Some (lit "Doe, Jane"); None])].
Proof.
  refine (proj2 (proj2 (load_list_cells_clean
                          [(lit "Name", [Some (lit " Doe, Jane  "); None])]
                          [(lit "Name", [Some (lit "Doe, Jane"); None])] _))).
  reflexivity.
Defined.

(** X23: [load_list] raises its RuntimeError exactly when some cell of
    the table read is a string that is empty or holds only whitespace;
    missing values alone never make it fail. *)
Theorem load_list_raises_iff (df : frame) :
  (exists e, load_list df = inl e)
  <-> exists label cells s,
        In (label, cells) df /\ In (Some s) cells /\ blank s = true.
Proof.
  unfold load_list.
  destruct (existsb _ _) eqn:E.
  - split; [intros _ | eauto].
    apply existsb_exists in E. destruct E as [col [Hcol E]].
    apply in_map_iff in Hcol. destruct Hcol as [[label cells] [<- Hin]].
    simpl in E. apply existsb_empty_cell_iff in E.
    destruct E as [s [Hs Hb]]. now exists label, cells, s.
  - split; [intros [e H]; discriminate|].
    intros (label & cells & s & Hin & Hs & Hb). exfalso.
    assert (Ht : existsb (fun col => existsb is_empty_cell (snd col))
                   (map (fun col => (fst col, map strip_cell (snd col))) df)
                 = true).
    { apply existsb_exists. exists (label, map strip_cell cells). split.
      - apply in_map_iff. now exists (label, cells).
      - simpl. apply existsb_empty_cell_iff. now exists s. }
    congruence.
Qed.
